(** * Placement tracker: a shallow embedding of [placement_tracker_app.py]

    The program keeps a table of placement offers in [placements.csv] and
    offers five actions over it (view, add, check eligibility, visualize,
    remove).  All of its logic is written with pandas data frames, so the
    embedding has three layers:

    - a small model of the data-frame operations the program uses (column
      selection, element-wise comparison, boolean indexing, [concat],
      [sort_values], [to_csv] / [read_csv]);
    - the program's own functions ([init_csv], [load_data], [save_data] and
      the branches of [main]) written over that model, in an error monad
      ([None] stands for a raised exception);
    - the properties of those functions.

    Conventions.  A cell is text or a number; a missing cell (pandas' NaN) is
    an absent key of the row.  Numbers are the rationals denoted by the
    program's floats and integers: only their order and equality matter here,
    and on non-NaN floats these agree with the order and equality of the
    denoted rationals.  Text is ASCII. *)

From Stdlib Require Import Ascii String QArith Qcanon.
From stdpp Require Import base option numbers list strings gmap sorting.

Local Open Scope string_scope.

(** ** Cells, rows, frames *)

Inductive value :=
  | VStr (s : string)
  | VNum (q : Qc).

Global Instance value_eq_dec : EqDecision value.
Proof. solve_decision. Defined.

(** A row maps column names to the cells that are present. *)
Abbreviation Row := (gmap string value).

(** A pandas [Series] restricted to one frame: one optional cell per row. *)
Abbreviation Series := (list (option value)).

Record DataFrame := mkDF {
  columns : list string;
  rows : list Row
}.

Global Instance DataFrame_eq_dec : EqDecision DataFrame.
Proof. solve_decision. Defined.

(** [df.empty] *)
Definition empty (df : DataFrame) : bool :=
  match rows df with
  | [] => true
  | _ => match columns df with [] => true | _ => false end
  end.

(** ** CSV files and the file system *)

(** The content of a CSV file: a header line and the records below it, each
    a list of fields; [None] is an empty field.  A field keeps the type of
    the cell it was written from: the file is not modelled as text, so
    reading it back does not decide anew whether a column is one of numbers
    or of texts, as [pd.read_csv] does.  The properties that load a dataset
    again after it has been changed are therefore stated for datasets on
    which this makes no difference ([well_typed] below). *)
Record Csv := mkCsv {
  header : list string;
  records : list (list (option value))
}.

Global Instance Csv_eq_dec : EqDecision Csv.
Proof. solve_decision. Defined.

Abbreviation FS := (gmap string Csv).

(** [df.to_csv(..., index=False)]: the header, then the cells of every row in
    column order; a missing cell is written as an empty field. *)
Definition to_csv (df : DataFrame) : Csv :=
  mkCsv (columns df) (map (λ r : Row, map (λ c, r !! c) (columns df)) (rows df)).

(** The texts [pd.read_csv] reads as a missing value by default. *)
Definition STR_NA_VALUES : list string :=
  [ ""; "#N/A"; "#N/A N/A"; "#NA"; "-1.#IND"; "-1.#QNAN"; "-NaN"; "-nan";
    "1.#IND"; "1.#QNAN"; "<NA>"; "N/A"; "NA"; "NULL"; "NaN"; "None"; "n/a";
    "nan"; "null" ].

Definition read_field (f : option value) : option value :=
  match f with
  | Some (VStr s) => if decide (s ∈ STR_NA_VALUES) then None else Some (VStr s)
  | _ => f
  end.

Definition read_cell (cf : string * option value) : option (string * value) :=
  (λ v, (cf.1, v)) <$> read_field cf.2.

(** One record against the header: short records are padded with missing
    cells, a record with more fields than the header is a parse error. *)
Definition read_record (hdr : list string) (fields : list (option value)) : option Row :=
  if decide (length fields ≤ length hdr)%nat
  then Some (list_to_map (omap read_cell (zip hdr fields)))
  else None.

(** [pd.read_csv] on the content of a file. *)
Definition read_csv (csv : Csv) : option DataFrame :=
  rs ← mapM (read_record (header csv)) (records csv);
  Some (mkDF (header csv) rs).

(** ** Storage: [init_csv], [load_data], [save_data] *)

Definition CSV_FILE : string := "placements.csv".

(** The column list of [init_csv], as written in the source: there is no comma
    between ["Backlogs_Allowed"] and ["Eligibility_10th"], so Python joins the
    two adjacent literals into one. *)
Definition init_columns : list string :=
  [ "Company"; "Role"; "Package(LPA)";
    "Eligibility_CGPA"; "Backlogs_Allowed" +:+
    "Eligibility_10th"; "Eligibility_12th" ].

Definition init_csv (fs : FS) : FS :=
  if decide (is_Some (fs !! CSV_FILE)) then fs
  else <[CSV_FILE := to_csv (mkDF init_columns [])]> fs.

(** [None]: the file does not exist or does not parse. *)
Definition load_data (fs : FS) : option DataFrame :=
  csv ← fs !! CSV_FILE; read_csv csv.

Definition save_data (df : DataFrame) (fs : FS) : FS :=
  <[CSV_FILE := to_csv df]> fs.

(** The header the rest of the program works with (the keys of [new_entry]
    in [main]). *)
Definition canonical_columns : list string :=
  [ "Company"; "Role"; "Package(LPA)"; "Eligibility_CGPA"; "Backlogs_Allowed";
    "Eligibility_10th"; "Eligibility_12th" ].

(** ** Data-frame operations used by the program *)

(** [df[c]]: the column as a series; a [KeyError] when there is no such
    column. *)
Definition getitem (df : DataFrame) (c : string) : option Series :=
  if decide (c ∈ columns df) then Some (map (λ r : Row, r !! c) (rows df))
  else None.

(** [series <= x] and [series >= x], cell by cell.  A missing cell compares
    false; comparing text with a number is a [TypeError]. *)
Definition cell_le (x : Qc) (c : option value) : option bool :=
  match c with
  | None => Some false
  | Some (VNum q) => Some (bool_decide (q ≤ x)%Qc)
  | Some (VStr _) => None
  end.

Definition cell_ge (x : Qc) (c : option value) : option bool :=
  match c with
  | None => Some false
  | Some (VNum q) => Some (bool_decide (x ≤ q)%Qc)
  | Some (VStr _) => None
  end.

Definition series_le (x : Qc) (s : Series) : option (list bool) := mapM (cell_le x) s.
Definition series_ge (x : Qc) (s : Series) : option (list bool) := mapM (cell_ge x) s.

(** [m1 & m2] and [m1 | m2] on boolean series of one frame. *)
Definition mask_and (m1 m2 : list bool) : list bool := zip_with andb m1 m2.
Definition mask_or (m1 m2 : list bool) : list bool := zip_with orb m1 m2.

Fixpoint select {A} (mask : list bool) (l : list A) : list A :=
  match mask, l with
  | b :: mask, x :: l => if b then x :: select mask l else select mask l
  | _, _ => []
  end.

(** [df[mask]]: the rows whose mask entry is true, in order. *)
Definition boolean_index (df : DataFrame) (mask : list bool) : DataFrame :=
  mkDF (columns df) (select mask (rows df)).

(** [df[[c1, ..., cn]]]: the listed columns only; a [KeyError] when one is
    missing. *)
Definition getitems (df : DataFrame) (cs : list string) : option DataFrame :=
  if decide (Forall (λ c, c ∈ columns df) cs)
  then Some (mkDF cs (map (λ r : Row, filter (λ kv, kv.1 ∈ cs) r) (rows df)))
  else None.

(** [df[c] = series]: replaces the column, or adds it as the last one. *)
Definition set_cell (c : string) (r : Row) (v : option value) : Row :=
  match v with
  | Some v => <[c := v]> r
  | None => delete c r
  end.

Definition setitem (df : DataFrame) (c : string) (s : Series) : DataFrame :=
  mkDF (if decide (c ∈ columns df) then columns df else columns df ++ [c])
       (zip_with (set_cell c) (rows df) s).

(** [df.drop(columns=[c])]: a [KeyError] when there is no such column. *)
Definition drop_column (df : DataFrame) (c : string) : option DataFrame :=
  if decide (c ∈ columns df)
  then Some (mkDF (filter (λ c', c' ≠ c) (columns df)) (map (delete c) (rows df)))
  else None.

(** [pd.concat([df1, df2], ignore_index=True)]: the rows of [df1] then those
    of [df2]; the columns of [df1], then those of [df2] that [df1] lacks. *)
Definition concat (df1 df2 : DataFrame) : DataFrame :=
  mkDF (columns df1 ++ filter (λ c, c ∉ columns df1) (columns df2))
       (rows df1 ++ rows df2).

(** [df.take(indexer)]: the rows at the given positions, in that order. *)
Definition take_rows (df : DataFrame) (indexer : list nat) : DataFrame :=
  mkDF (columns df) (omap (λ i, rows df !! i) indexer).

(** *** Text columns *)

Definition is_text (c : option value) : bool :=
  match c with Some (VStr _) => true | _ => false end.

(** The [object] dtype as [read_csv] infers it: a column with at least one
    text cell, or a column of no cells at all.  A column of numbers and
    missing cells only has a numeric dtype. *)
Definition is_object (s : Series) : bool :=
  match s with [] => true | _ => existsb is_text s end.

Definition lower_ascii (a : ascii) : ascii :=
  let n := nat_of_ascii a in
  if (65 <=? n)%nat && (n <=? 90)%nat then ascii_of_nat (n + 32) else a.

Fixpoint lower (s : string) : string :=
  match s with
  | EmptyString => EmptyString
  | String a s => String (lower_ascii a) (lower s)
  end.

Fixpoint starts_with (p s : string) : bool :=
  match p, s with
  | EmptyString, _ => true
  | String a p, String b s => bool_decide (a = b) && starts_with p s
  | String _ _, EmptyString => false
  end.

(** Plain substring search: try every start position from the left. *)
Fixpoint find_in (p s : string) : bool :=
  starts_with p s ||
  match s with
  | EmptyString => false
  | String _ s => find_in p s
  end.

(** The characters with a special meaning in a Python regular expression. *)
Definition metachars : list ascii :=
  list_ascii_of_string ".^$*+?{}[]\|()".

Definition is_literal (pat : string) : bool :=
  forallb (λ a, bool_decide (a ∉ metachars)) (list_ascii_of_string pat).

(** [series + t] for a text [t].  On a numeric column this is a [TypeError];
    on an [object] column missing cells stay missing. *)
Definition cell_add_str (t : string) (c : option value) : option (option value) :=
  match c with
  | None => Some None
  | Some (VStr s) => Some (Some (VStr (s +:+ t)))
  | Some (VNum _) => None
  end.

Definition str_add_scalar (s : Series) (t : string) : option Series :=
  if is_object s then mapM (cell_add_str t) s else None.

(** [a + b] for a text series [a]: the result is missing where either cell
    is, and adding a number to a text is a [TypeError].  When [b] has
    cells but no text, pandas 2 returns a series of missing cells, as here,
    and pandas 3 raises a [TypeError]; the properties of Remove below that
    say it returns ask for a Role column with text, where the two agree. *)
Definition cells_add (ab : option value * option value) : option (option value) :=
  match ab with
  | (Some (VStr x), Some (VStr y)) => Some (Some (VStr (x +:+ y)))
  | (None, _) | (_, None) => Some None
  | _ => None
  end.

Definition str_add_series (a b : Series) : option Series := mapM cells_add (zip a b).

(** [series != t] for a text [t]: a cell that is missing or not that text
    compares true. *)
Definition cell_ne (t : string) (c : option value) : bool :=
  bool_decide (c ≠ Some (VStr t)).

Definition series_ne (s : Series) (t : string) : list bool := map (cell_ne t) s.

(** ** The program *)

(** What a run shows to the user. *)
Inductive output :=
  | st_warning (msg : string)
  | st_error (msg : string)
  | st_success (msg : string)
  | st_dataframe (df : DataFrame)
  | st_download_button (label : string) (data : Csv) (file_name : string)
  | st_plotly_chart (df : DataFrame)
  | st_rerun.

Inductive sort_order := SortNone | HighestToLowest | LowestToHighest.

(** The values of the "Add Company" form. *)
Record entry := mkEntry {
  company : string;
  role : string;
  package : Qc;
  cgpa : Qc;
  backlogs : Z;
  perc_10th : Qc;
  perc_12th : Qc
}.

(** The values of the "Check Eligibility" inputs. *)
Record profile := mkProfile {
  user_cgpa : Qc;
  user_backlogs : Z;
  user_10th : Qc;
  user_12th : Qc
}.

Inductive action :=
  | ViewCompanies (search_term : string) (order : sort_order)
  | AddCompany (e : entry) (submitted : bool)
  | CheckEligibility (p : profile) (clicked : bool)
  | VisualizePackages
  | RemoveCompany (selected_entry : option string) (clicked : bool).

(** [new_entry], as a row; the keys in the order of the dict. *)
Definition new_entry (e : entry) : Row :=
  <["Company" := VStr (company e)]>
  (<["Role" := VStr (role e)]>
  (<["Package(LPA)" := VNum (package e)]>
  (<["Eligibility_CGPA" := VNum (cgpa e)]>
  (<["Backlogs_Allowed" := VNum (Qc_of_Z (backlogs e))]>
  (<["Eligibility_10th" := VNum (perc_10th e)]>
  (<["Eligibility_12th" := VNum (perc_12th e)]> ∅)))))).

Definition EXPORT_FILE : string := "eligible_companies.csv".

Section program.

(** Two library routines are parameters of the development.

    [re_compile pat] is Python's [re.compile(pat, re.IGNORECASE)] for a
    pattern with metacharacters: the search function of the compiled
    pattern, or [None] when the pattern does not compile.

    [argsort ks] is numpy's [argsort] of the default kind (["quicksort"]),
    which is what [sort_values] uses when no [kind] is given: the positions
    of [ks] in an order that sorts it. *)
Variable re_compile : string → option (string → bool).
Variable argsort : list Qc → list nat.

(** [series.str.contains(pat, case=False, na=False)]: the pattern is a
    regular expression ([regex=True] is the default).  A pattern without
    metacharacters matches exactly where it occurs as a substring, compared
    without case.  The [.str] accessor raises on a column that is not of
    [object] dtype. *)
Definition compile_ignorecase (pat : string) : option (string → bool) :=
  if is_literal pat then Some (λ t, find_in (lower pat) (lower t))
  else re_compile pat.

Definition cell_contains (f : string → bool) (c : option value) : bool :=
  match c with
  | Some (VStr t) => f t
  | _ => false
  end.

Definition str_contains (pat : string) (s : Series) : option (list bool) :=
  if is_object s then
    f ← compile_ignorecase pat;
    Some (map (cell_contains f) s)
  else None.

(** The sort key of a cell: a number, or missing. *)
Definition cell_num (c : option value) : option (option Qc) :=
  match c with
  | None => Some None
  | Some (VNum q) => Some (Some q)
  | Some (VStr _) => None
  end.

Definition present_at (ik : nat * option Qc) : option (nat * Qc) :=
  (λ k, (ik.1, k)) <$> ik.2.

Definition missing_at (ik : nat * option Qc) : option nat :=
  match ik.2 with None => Some ik.1 | Some _ => None end.

(** pandas' [nargsort] with [na_position="last"]: the positions of the
    present keys, sorted (for a descending sort: reversed, sorted, reversed
    again), then the positions of the missing keys in their order. *)
Definition nargsort (ascending : bool) (items : list (option Qc)) : list nat :=
  let idx := seq 0 (length items) in
  let present := omap present_at (zip idx items) in
  let nan_idx := omap missing_at (zip idx items) in
  let non_nans := present.*2 in
  let non_nan_idx := present.*1 in
  let non_nans := if ascending then non_nans else reverse non_nans in
  let non_nan_idx := if ascending then non_nan_idx else reverse non_nan_idx in
  let indexer := omap (λ j, non_nan_idx !! j) (argsort non_nans) in
  let indexer := if ascending then indexer else reverse indexer in
  indexer ++ nan_idx.

(** [df.sort_values(by=c, ascending=...)] on a numeric column.  [None]: no
    such column, or the column holds text (outside this development). *)
Definition sort_values (df : DataFrame) (by_ : string) (ascending : bool)
    : option DataFrame :=
  k ← getitem df by_;
  items ← mapM cell_num k;
  Some (take_rows df (nargsort ascending items)).

(** *** View Companies *)

Definition search (df : DataFrame) (search_term : string) : option DataFrame :=
  let filtered_df := df in
  if decide (search_term = "") then Some filtered_df
  else
    in_role ← getitem filtered_df "Role" ≫= str_contains search_term;
    in_company ← getitem filtered_df "Company" ≫= str_contains search_term;
    Some (boolean_index filtered_df (mask_or in_role in_company)).

Definition sortByPackage (filtered_df : DataFrame) (order : sort_order)
    : option DataFrame :=
  match order with
  | HighestToLowest => sort_values filtered_df "Package(LPA)" false
  | LowestToHighest => sort_values filtered_df "Package(LPA)" true
  | SortNone => Some filtered_df
  end.

Definition view_companies (df : DataFrame) (search_term : string)
    (order : sort_order) : option (list output) :=
  if empty df then Some [st_warning "No companies added yet."]
  else
    filtered_df ← search df search_term;
    filtered_df ← sortByPackage filtered_df order;
    Some [st_dataframe filtered_df].

(** *** Add Company *)

Definition add_company (fs : FS) (df : DataFrame) (e : entry) (submitted : bool)
    : FS * list output :=
  if submitted then
    let df := concat df (mkDF canonical_columns [new_entry e]) in
    (save_data df fs, [st_success (company e +:+ " added successfully!")])
  else (fs, []).

(** *** Check Eligibility *)

Definition filterEligible (df : DataFrame) (p : profile) : option DataFrame :=
  ok_cgpa ← getitem df "Eligibility_CGPA" ≫= series_le (user_cgpa p);
  ok_backlogs ← getitem df "Backlogs_Allowed" ≫= series_ge (Qc_of_Z (user_backlogs p));
  ok_10th ← getitem df "Eligibility_10th" ≫= series_le (user_10th p);
  ok_12th ← getitem df "Eligibility_12th" ≫= series_le (user_12th p);
  Some (boolean_index df
          (mask_and (mask_and (mask_and ok_cgpa ok_backlogs) ok_10th) ok_12th)).

Definition check_eligibility (fs : FS) (df : DataFrame) (p : profile)
    (clicked : bool) : option (FS * list output) :=
  if clicked then
    eligible ← filterEligible df p;
    if empty eligible
    then Some (fs, [st_error "No companies available for your profile."])
    else
      shown ← getitems eligible ["Company"; "Role"; "Package(LPA)"];
      Some (<[EXPORT_FILE := to_csv eligible]> fs,
            [ st_success "You are eligible for the following companies:";
              st_dataframe shown;
              st_download_button "Download Eligible Companies"
                (to_csv eligible) EXPORT_FILE ])
  else Some (fs, []).

(** *** Visualize Packages *)

Definition visualize_packages (df : DataFrame) : option (list output) :=
  if empty df then Some [st_warning "No companies to visualize yet."]
  else
    df_sorted ← sort_values df "Package(LPA)" false;
    Some [st_plotly_chart df_sorted].

(** *** Remove Company *)

(** [df["Company"] + " - " + df["Role"]] *)
Definition company_role (df : DataFrame) : option Series :=
  c ← getitem df "Company";
  c ← str_add_scalar c " - ";
  r ← getitem df "Role";
  str_add_series c r.

(** [df["Company_Role"] != selected_entry]; the selection is one of the
    labels, and [None] when that label is a missing value, which differs
    from every cell. *)
Definition label_ne (selected_entry : option string) (s : Series) : list bool :=
  match selected_entry with
  | Some t => series_ne s t
  | None => map (λ _, true) s
  end.

Definition remove_company (fs : FS) (df : DataFrame)
    (selected_entry : option string) (clicked : bool)
    : option (FS * list output) :=
  if empty df then Some (fs, [st_warning "No companies to remove."])
  else
    labels ← company_role df;
    let df := setitem df "Company_Role" labels in
    if clicked then
      labels ← getitem df "Company_Role";
      df ← drop_column (boolean_index df (label_ne selected_entry labels))
                       "Company_Role";
      Some (save_data df fs,
            [ st_success (default "nan" selected_entry +:+ " removed successfully!");
              st_rerun ])
    else Some (fs, []).

(** *** [main] *)

Definition main (fs : FS) (choice : action) : option (FS * list output) :=
  let fs := init_csv fs in
  df ← load_data fs;
  match choice with
  | ViewCompanies search_term order =>
      out ← view_companies df search_term order; Some (fs, out)
  | AddCompany e submitted => Some (add_company fs df e submitted)
  | CheckEligibility p clicked => check_eligibility fs df p clicked
  | VisualizePackages => out ← visualize_packages df; Some (fs, out)
  | RemoveCompany selected_entry clicked =>
      remove_company fs df selected_entry clicked
  end.

End program.

(** ** Vocabulary of the properties *)

(** Column [c] of [df] exists and holds numbers and missing cells only. *)
Definition numeric_column (df : DataFrame) (c : string) : Prop :=
  c ∈ columns df ∧ Forall (λ r : Row, is_text (r !! c) = false) (rows df).

Global Instance numeric_column_dec df c : Decision (numeric_column df c).
Proof. unfold numeric_column. apply _. Defined.

Definition threshold_columns : list string :=
  [ "Eligibility_CGPA"; "Backlogs_Allowed"; "Eligibility_10th"; "Eligibility_12th" ].

(** The four eligibility columns are there and numeric: the frame is a
    dataset of placements as far as the eligibility check is concerned. *)
Definition has_thresholds (df : DataFrame) : Prop :=
  Forall (numeric_column df) threshold_columns.

Global Instance has_thresholds_dec df : Decision (has_thresholds df).
Proof. unfold has_thresholds. apply _. Defined.

(** The cell of row [r] in column [c] is a number [q] with [q <= x]
    (respectively [q >= x]). *)
Definition at_most (r : Row) (c : string) (x : Qc) : Prop :=
  ∃ q, r !! c = Some (VNum q) ∧ (q ≤ x)%Qc.

Definition at_least (r : Row) (c : string) (x : Qc) : Prop :=
  ∃ q, r !! c = Some (VNum q) ∧ (x ≤ q)%Qc.

(** The four inequalities of the eligibility rule. *)
Definition meets (r : Row) (p : profile) : Prop :=
  at_most r "Eligibility_CGPA" (user_cgpa p) ∧
  at_least r "Backlogs_Allowed" (Qc_of_Z (user_backlogs p)) ∧
  at_most r "Eligibility_10th" (user_10th p) ∧
  at_most r "Eligibility_12th" (user_12th p).

(** The test the four masks of [filterEligible] compute on one row. *)
Definition eligible_row (p : profile) (r : Row) : bool :=
  default false (cell_le (user_cgpa p) (r !! "Eligibility_CGPA")) &&
  default false (cell_ge (Qc_of_Z (user_backlogs p)) (r !! "Backlogs_Allowed")) &&
  default false (cell_le (user_10th p) (r !! "Eligibility_10th")) &&
  default false (cell_le (user_12th p) (r !! "Eligibility_12th")).

(** The columns of the table the eligibility check displays. *)
Definition shown_columns : list string := ["Company"; "Role"; "Package(LPA)"].

(** Column [c] of [df] exists and has the [object] dtype. *)
Definition text_column (df : DataFrame) (c : string) : Prop :=
  c ∈ columns df ∧ is_object (map (λ r : Row, r !! c) (rows df)) = true.

Global Instance text_column_dec df c : Decision (text_column df c).
Proof. unfold text_column. apply _. Defined.

(** [t] occurs in [s] as a substring when case is ignored. *)
Definition contains_ci (t s : string) : Prop :=
  ∃ pre post, lower s = pre +:+ lower t +:+ post.

(** The cell of row [r] in column [c] is a text in which [t] occurs, case
    ignored. *)
Definition field_contains (r : Row) (c t : string) : Prop :=
  ∃ s, r !! c = Some (VStr s) ∧ contains_ci t s.

(** The test [search] computes on one row, for a compiled pattern [f]. *)
Definition search_row (f : string → bool) (r : Row) : bool :=
  cell_contains f (r !! "Role") || cell_contains f (r !! "Company").

(** The sort key of a row: its package when that is a number. *)
Definition package_of (r : Row) : option Qc :=
  default None (cell_num (r !! "Package(LPA)")).

(** What numpy promises of [argsort] whatever the kind: the result lists
    every position once, and reading the keys in that order gives a
    non-decreasing sequence.  Nothing is promised about the order of equal
    keys unless a stable kind is asked for, which the program does not do. *)
Definition argsort_ok (argsort : list Qc → list nat) : Prop :=
  ∀ ks, argsort ks ≡ₚ seq 0 (length ks) ∧
        StronglySorted Qcle (omap (λ j, ks !! j) (argsort ks)).

(** What a stable kind adds: the positions of every key come out in
    increasing order. *)
Definition argsort_stable (argsort : list Qc → list nat) : Prop :=
  ∀ ks q, filter (λ j, ks !! j = Some q) (argsort ks)
          = filter (λ j, ks !! j = Some q) (seq 0 (length ks)).

(** The Package column of [df] exists and holds numbers and missing cells
    only. *)
Definition has_packages (df : DataFrame) : Prop :=
  numeric_column df "Package(LPA)".

Global Instance has_packages_dec df : Decision (has_packages df).
Proof. unfold has_packages. apply _. Defined.

(** Every row of [df] has a package, and no two rows have the same one. *)
Definition distinct_packages (df : DataFrame) : Prop :=
  Forall (λ r, is_Some (package_of r)) (rows df) ∧ NoDup (package_of <$> rows df).

Global Instance distinct_packages_dec df : Decision (distinct_packages df).
Proof. unfold distinct_packages. apply _. Defined.

(** [l'] keeps the rows of each package in the order they have in [l]. *)
Definition keeps_ties (l l' : list Row) : Prop :=
  ∀ q, filter (λ r, package_of r = Some q) l' = filter (λ r, package_of r = Some q) l.

(** *** A sorting routine that meets [argsort_ok] and keeps ties

    Insertion of the positions from the last to the first, each before the
    first position it is [before].  With [<=] a position stays in front of
    the later positions of equal key. *)
Definition key_at (ks : list Qc) (i : nat) : Qc := default 0%Qc (ks !! i).

Fixpoint insert_pos (before : Qc → Qc → bool) (ks : list Qc) (i : nat)
    (l : list nat) : list nat :=
  match l with
  | [] => [i]
  | j :: l' =>
      if before (key_at ks i) (key_at ks j) then i :: l
      else j :: insert_pos before ks i l'
  end.

Definition insertion_argsort (before : Qc → Qc → bool) (ks : list Qc) : list nat :=
  foldr (insert_pos before ks) [] (seq 0 (length ks)).

Definition stable_argsort : list Qc → list nat :=
  insertion_argsort (λ a b, bool_decide (a ≤ b)%Qc).

(** *** The sorting routine of numpy's default kind

    [sort_values] is called without [kind], so the positions are sorted by
    [ndarray.argsort(kind="quicksort")].  For 64-bit keys that is the
    introsort [aquicksort_] of numpy's [npysort/quicksort.cpp], which sorts
    the array of positions [tosort] in place by the keys [v]: partitions of
    more than [SMALL_QUICKSORT] + 1 positions are split around the median of
    their first, middle and last key, the largest part is put on a stack,
    and small partitions are sorted by insertion.  It is written below loop
    by loop, with the pointers [pl], [pr], [pi], [pj] as positions in
    [tosort].  When the recursion gets deeper than twice the binary
    logarithm of the length the routine turns to heapsort; that branch is
    not written out ([None]), nor are the vectorised routines numpy puts in
    place of this one on processors that have them. *)
Definition SMALL_QUICKSORT : nat := 16.

(** [Tag::less] on keys that are not NaN. *)
Definition less (x y : Qc) : bool := bool_decide (x < y)%Qc.

(** [*p] and [v[*p]] *)
Definition index_at (tosort : list nat) (p : nat) : nat := default 0 (tosort !! p).

Definition value_at (v : list Qc) (tosort : list nat) (p : nat) : Qc :=
  key_at v (index_at tosort p).

Definition INTP_SWAP (tosort : list nat) (p q : nat) : list nat :=
  <[q := index_at tosort p]> (<[p := index_at tosort q]> tosort).

(** [do { ++pi; } while (less(v[*pi], vp))], entered with [pi] already
    incremented. *)
Fixpoint scan_up (fuel : nat) (v : list Qc) (tosort : list nat) (vp : Qc)
    (pi : nat) : nat :=
  match fuel with
  | O => pi
  | S fuel =>
      if less (value_at v tosort pi) vp then scan_up fuel v tosort vp (S pi) else pi
  end.

(** [do { --pj; } while (less(vp, v[*pj]))], entered with [pj] already
    decremented. *)
Fixpoint scan_down (fuel : nat) (v : list Qc) (tosort : list nat) (vp : Qc)
    (pj : nat) : nat :=
  match fuel with
  | O => pj
  | S fuel =>
      if less vp (value_at v tosort pj) then scan_down fuel v tosort vp (pj - 1) else pj
  end.

(** The [for (;;)] loop of the partition: both scans, then a swap unless
    the pointers have met. *)
Fixpoint partition_loop (fuel : nat) (v : list Qc) (vp : Qc) (tosort : list nat)
    (pi pj : nat) : list nat * nat :=
  match fuel with
  | O => (tosort, pi)
  | S fuel =>
      let pi := scan_up (length tosort) v tosort vp (S pi) in
      let pj := scan_down (length tosort) v tosort vp (pj - 1) in
      if (pj <=? pi)%nat then (tosort, pi)
      else partition_loop fuel v vp (INTP_SWAP tosort pi pj) pi pj
  end.

(** The three conditional swaps that put the median of [v[*pl]], [v[*pm]],
    [v[*pr]] at [pm]. *)
Definition median_of_three (v : list Qc) (tosort : list nat) (pl pm pr : nat)
    : list nat :=
  let t1 := if less (value_at v tosort pm) (value_at v tosort pl)
            then INTP_SWAP tosort pm pl else tosort in
  let t2 := if less (value_at v t1 pr) (value_at v t1 pm)
            then INTP_SWAP t1 pr pm else t1 in
  if less (value_at v t2 pm) (value_at v t2 pl) then INTP_SWAP t2 pm pl else t2.

(** One partition of [pl .. pr]: the positions afterwards, and where the
    pivot ends up. *)
Definition partition (v : list Qc) (tosort : list nat) (pl pr : nat)
    : list nat * nat :=
  let pm := (pl + (pr - pl) / 2)%nat in
  let t := median_of_three v tosort pl pm pr in
  let vp := value_at v t pm in
  let pj := (pr - 1)%nat in
  let '(t, pi) := partition_loop (length t) v vp (INTP_SWAP t pm pj) pl pj in
  (INTP_SWAP t pi (pr - 1), pi).

(** [while (pj > pl && less(vp, v[*pk])) { *pj-- = *pk--; }] with
    [pk = pj - 1]. *)
Fixpoint shift_right (fuel : nat) (v : list Qc) (vp : Qc) (tosort : list nat)
    (pl pj : nat) : list nat * nat :=
  match fuel with
  | O => (tosort, pj)
  | S fuel =>
      if (pl <? pj)%nat && less vp (value_at v tosort (pj - 1))
      then shift_right fuel v vp (<[pj := index_at tosort (pj - 1)]> tosort) pl (pj - 1)
      else (tosort, pj)
  end.

(** One round of the insertion sort of [pl .. pr], for the position [pi]. *)
Definition insert_at (v : list Qc) (pl : nat) (tosort : list nat) (pi : nat)
    : list nat :=
  let vi := index_at tosort pi in
  let '(t, pj) := shift_right (length tosort) v (key_at v vi) tosort pl pi in
  <[pj := vi]> t.

Definition insertion_sort (v : list Qc) (tosort : list nat) (pl pr : nat) : list nat :=
  foldl (insert_at v pl) tosort (seq (S pl) (pr - pl)).

(** The outer loop.  [stack] holds the partitions put aside, each with the
    depth left for it; [popped] tells that [pl .. pr] was just taken from
    the stack or is the whole array, which is when the depth is looked
    at. *)
Fixpoint aquicksort_loop (fuel : nat) (v : list Qc) (tosort : list nat) (pl pr : nat)
    (stack : list (nat * nat * Z)) (cdepth : Z) (popped : bool)
    : option (list nat) :=
  match fuel with
  | O => None
  | S fuel =>
      if popped && bool_decide (cdepth < 0)%Z then None
      else if (SMALL_QUICKSORT <? pr - pl)%nat then
        let '(t, pi) := partition v tosort pl pr in
        let cdepth := (cdepth - 1)%Z in
        if (pi - pl <? pr - pi)%nat
        then aquicksort_loop fuel v t pl (pi - 1) ((S pi, pr, cdepth) :: stack)
               cdepth false
        else aquicksort_loop fuel v t (S pi) pr ((pl, (pi - 1)%nat, cdepth) :: stack)
               cdepth false
      else
        let t := insertion_sort v tosort pl pr in
        match stack with
        | [] => Some t
        | (pl, pr, cdepth) :: stack => aquicksort_loop fuel v t pl pr stack cdepth true
        end
  end.

(** [aquicksort_] on the positions [0 .. num - 1], as [argsort] calls it.
    Every round of the outer loop either splits a partition or finishes
    one, so twice the length is fuel enough. *)
Definition aquicksort (v : list Qc) : option (list nat) :=
  let num := length v in
  aquicksort_loop (S (2 * num)) v (seq 0 num) 0 (num - 1) []
    (2 * Z.log2 (Z.of_nat num))%Z true.

Definition numpy_argsort (v : list Qc) : list nat := default [] (aquicksort v).

(** The pieces [nargsort] is made of: the present keys with their positions,
    the positions of the missing keys, and a list of pairs put in the order
    [argsort] gives for its keys. *)
Definition present_keys (items : list (option Qc)) : list (nat * Qc) :=
  omap present_at (zip (seq 0 (length items)) items).

Definition missing_keys (items : list (option Qc)) : list nat :=
  omap missing_at (zip (seq 0 (length items)) items).

Definition by_key (argsort : list Qc → list nat) (pr : list (nat * Qc))
    : list (nat * Qc) :=
  omap (λ j, pr !! j) (argsort pr.*2).

(** The order a direction asks of the packages. *)
Definition in_order (order : sort_order) : relation Qc :=
  match order with
  | HighestToLowest => flip Qcle
  | _ => Qcle
  end.

(** A row that [to_csv] followed by [read_csv] gives back as it is: its
    cells are in columns that are written, and none of its texts is read as
    a missing value. *)
Definition stored_as_is (cols : list string) (r : Row) : Prop :=
  ∀ c v, r !! c = Some v → c ∈ cols ∧ read_field (Some v) = Some v.

(** A row as it is read back after being written under the header [cols]. *)
Definition read_back (cols : list string) (r : Row) : Row :=
  list_to_map (omap read_cell (zip cols (map (λ c, r !! c) cols))).

Definition is_number (c : option value) : bool :=
  match c with Some (VNum _) => true | _ => false end.

(** The Company column is a text column, the Role column exists, and
    neither holds a number: the two are columns of names. *)
Definition names_are_text (df : DataFrame) : Prop :=
  text_column df "Company" ∧ "Role" ∈ columns df ∧
  Forall (λ r : Row, is_number (r !! "Company") = false ∧
                     is_number (r !! "Role") = false) (rows df).

Global Instance names_are_text_dec df : Decision (names_are_text df).
Proof. unfold names_are_text. apply _. Defined.

(** The composite label of a row, as a cell: the company, [" - "], the
    role; missing when either is missing. *)
Definition label (r : Row) : option value :=
  match r !! "Company", r !! "Role" with
  | Some (VStr a), Some (VStr b) => Some (VStr ((a +:+ " - ") +:+ b))
  | _, _ => None
  end.


(** Profile [p'] is at least as good as [p]: no lower CGPA and percentages,
    no more backlogs. *)
Definition at_least_as_good (p p' : profile) : Prop :=
  (user_cgpa p ≤ user_cgpa p')%Qc ∧
  (user_backlogs p' ≤ user_backlogs p)%Z ∧
  (user_10th p ≤ user_10th p')%Qc ∧
  (user_12th p ≤ user_12th p')%Qc.

Global Instance at_least_as_good_dec p p' : Decision (at_least_as_good p p').
Proof. unfold at_least_as_good. apply _. Defined.

(** The profile that sits exactly on the thresholds [cgpa], [backlogs],
    [p10], [p12]. *)
Definition on_thresholds (r : Row) (p : profile) : Prop :=
  r !! "Eligibility_CGPA" = Some (VNum (user_cgpa p)) ∧
  r !! "Backlogs_Allowed" = Some (VNum (Qc_of_Z (user_backlogs p))) ∧
  r !! "Eligibility_10th" = Some (VNum (user_10th p)) ∧
  r !! "Eligibility_12th" = Some (VNum (user_12th p)).

Global Instance on_thresholds_dec r p : Decision (on_thresholds r p).
Proof. unfold on_thresholds. apply _. Defined.

(** The actions that may write to the store: a submitted form and a clicked
    button. *)
Definition may_write (choice : action) : bool :=
  match choice with
  | AddCompany _ submitted => submitted
  | CheckEligibility _ clicked => clicked
  | RemoveCompany _ clicked => clicked
  | ViewCompanies _ _ | VisualizePackages => false
  end.



(** Two rows have packages, and these are related by [rel]. *)
Definition package_rel (rel : relation Qc) (r1 r2 : Row) : Prop :=
  ∃ q1 q2, package_of r1 = Some q1 ∧ package_of r2 = Some q2 ∧ rel q1 q2.

(** The dataset has the seven canonical columns and no label column, its
    Company and Role cells are no numbers, and no row bears the label of
    the record [e]. *)
Definition fresh_label (df : DataFrame) (e : entry) : Prop :=
  (canonical_columns ⊆ columns df) ∧ ("Company_Role" ∉ columns df) ∧
  Forall (λ r : Row, is_number (r !! "Company") = false ∧
                     is_number (r !! "Role") = false ∧
                     label r ≠ label (new_entry e)) (rows df).

Global Instance fresh_label_dec df e : Decision (fresh_label df e).
Proof. unfold fresh_label. apply _. Defined.

(** *** Text within the reach of the model

    [lower] folds the letters A to Z only, where [str.contains(case=False)]
    folds every cased letter of Unicode.  The two agree on texts made of
    ASCII characters, which is what the search is specified for here. *)
Definition is_ascii (s : string) : bool :=
  forallb (λ a, (nat_of_ascii a <? 128)%nat) (list_ascii_of_string s).

Definition ascii_cell (c : option value) : bool :=
  match c with Some (VStr s) => is_ascii s | _ => true end.

(** The Company and Role texts of [df] are ASCII. *)
Definition ascii_names (df : DataFrame) : Prop :=
  Forall (λ r : Row, ascii_cell (r !! "Company") = true ∧
                     ascii_cell (r !! "Role") = true) (rows df).

Global Instance ascii_names_dec df : Decision (ascii_names df).
Proof. unfold ascii_names. apply _. Defined.

(** [pd.read_csv] decides the type of a column from the text of its fields:
    a column whose fields all read as numbers, or all as booleans, is given
    that type, and the fields of the other columns are all read as text.
    [read_csv] above carries the type of every cell through the file
    instead.  The two readers give the same frame for a file in which every
    text can only be read as text and no column holds both texts and
    numbers; what is said below about a dataset that has been saved and is
    loaded again is said of such datasets, [well_typed].

    [plain_text]: the text is made of printable ASCII characters, it is
    none of the markers of a missing value and none of the spellings of a
    boolean, and it has a letter that occurs in no spelling of a number
    (these are written with digits, signs, the point, the exponent letters
    and the letters of inf, infinity and nan; x, d and j are left out as
    well). *)
Definition printable (a : ascii) : bool :=
  let n := nat_of_ascii a in (32 <=? n)%nat && (n <=? 126)%nat.

Definition is_letter (a : ascii) : bool :=
  let n := nat_of_ascii a in
  ((65 <=? n)%nat && (n <=? 90)%nat) || ((97 <=? n)%nat && (n <=? 122)%nat).

Definition number_letters : list ascii :=
  list_ascii_of_string "adefijntxyADEFIJNTXY".

Definition BOOL_VALUES : list string :=
  [ "True"; "TRUE"; "true"; "False"; "FALSE"; "false" ].

Definition plain_text (s : string) : bool :=
  forallb printable (list_ascii_of_string s) &&
  existsb (λ a, is_letter a && bool_decide (a ∉ number_letters))
          (list_ascii_of_string s) &&
  bool_decide (s ∉ STR_NA_VALUES) && bool_decide (s ∉ BOOL_VALUES).

(** A number that is written and read back as it is, whether its column is
    one of integers or of floats, with room to spare: at most six decimals,
    and below a billion in absolute value. *)
Definition plain_number (q : Qc) : bool :=
  let n := Qnum (this q) in
  let d := Zpos (Qden (this q)) in
  bool_decide (10 ^ 6 mod d = 0)%Z && bool_decide (Z.abs n < 10 ^ 9 * d)%Z.

Definition plain_cell (v : value) : bool :=
  match v with VStr s => plain_text s | VNum q => plain_number q end.

(** Column [c] of [df] holds texts or numbers, not both. *)
Definition one_type (df : DataFrame) (c : string) : Prop :=
  existsb is_text (map (λ r : Row, r !! c) (rows df)) = false ∨
  existsb is_number (map (λ r : Row, r !! c) (rows df)) = false.

(** A dataset that the CSV reader of pandas gives back as it was written:
    there are columns, their names are plain and distinct, every row has a
    cell in one of them, every cell is plain, and every column is of one
    type. *)
Definition well_typed (df : DataFrame) : Prop :=
  (columns df ≠ [] ∧ NoDup (columns df) ∧
   Forall (λ c, plain_text c = true) (columns df)) ∧
  Forall (λ r : Row, Exists (λ c, is_Some (r !! c)) (columns df) ∧
                     map_Forall (λ _ v, plain_cell v = true) r) (rows df) ∧
  Forall (one_type df) (columns df).

Global Instance well_typed_dec df : Decision (well_typed df).
Proof. unfold well_typed, one_type. apply _. Defined.



(** ** Sample data *)

(** A decimal number [n / d]. *)
Definition decimal (n : Z) (d : positive) : Qc := Q2Qc (n # d).

Definition acme : entry :=
  mkEntry "Acme" "Engineer" (decimal 10 1) (decimal 75 10) 1 (decimal 60 1) (decimal 60 1).

Definition globex : entry :=
  mkEntry "Globex" "Analyst" (decimal 6 1) (decimal 6 1) 0 (decimal 50 1) (decimal 55 1).

Definition sample_df : DataFrame :=
  mkDF canonical_columns [new_entry acme; new_entry globex].

(** A candidate who passes every threshold of [acme] and [globex], and one
    whose CGPA is below the 7.5 that [acme] asks for. *)
Definition strong_profile : profile := mkProfile (decimal 8 1) 0 (decimal 70 1) (decimal 70 1).
Definition weak_profile : profile := mkProfile (decimal 7 1) 0 (decimal 70 1) (decimal 70 1).

(** A row whose 10th-grade threshold is missing. *)
Definition no_10th : Row := delete "Eligibility_10th" (new_entry acme).
Definition gappy_df : DataFrame := mkDF canonical_columns [no_10th; new_entry globex].

(** A store that holds the dataset [[acme]] and no export yet. *)
Definition acme_fs : FS := {[ CSV_FILE := to_csv (mkDF canonical_columns [new_entry acme]) ]}.

(** A row without a company name, next to a complete one. *)
Definition nameless : Row := delete "Company" (new_entry acme).
Definition nameless_df : DataFrame := mkDF canonical_columns [nameless; new_entry globex].

(** A regular-expression engine that accepts no pattern: enough where the
    search term has no metacharacter. *)
Definition no_regex : string → option (string → bool) := λ _, None.

(** A company whose name a pattern with a wildcard matches. *)
Definition abc : entry :=
  mkEntry "abc" "Clerk" (decimal 4 1) (decimal 5 1) 2 (decimal 40 1) (decimal 40 1).
Definition abc_df : DataFrame := mkDF canonical_columns [new_entry abc].

(** Two offers with the same package. *)
Definition initech : entry :=
  mkEntry "Initech" "Tester" (decimal 10 1) (decimal 6 1) 0 (decimal 50 1) (decimal 50 1).
Definition tie_df : DataFrame := mkDF canonical_columns [new_entry acme; new_entry initech].

(** An offer with a package, followed by one whose package is missing. *)
Definition unpaid : Row := delete "Package(LPA)" (new_entry globex).
Definition unpaid_df : DataFrame := mkDF canonical_columns [new_entry acme; unpaid].


(** A dataset in which two rows bear the label "Acme - Engineer". *)
Definition acme2 : entry :=
  mkEntry "Acme" "Engineer" (decimal 12 1) (decimal 8 1) 0 (decimal 65 1) (decimal 65 1).
Definition twice_df : DataFrame :=
  mkDF canonical_columns [new_entry acme; new_entry globex; new_entry acme2].
Definition twice_fs : FS := {[ CSV_FILE := to_csv twice_df ]}.

(** A store that holds only an export left by an earlier check. *)
Definition export_only_fs : FS :=
  {[ EXPORT_FILE := to_csv (mkDF canonical_columns [new_entry globex]) ]}.

(** A dataset in which no row has a role. *)
Definition roleless_df : DataFrame :=
  mkDF canonical_columns
    [delete "Role" (new_entry acme); delete "Role" (new_entry globex)].

(** [sample_df] with its rows in the other order. *)
Definition sample_df_swapped : DataFrame :=
  mkDF canonical_columns [new_entry globex; new_entry acme].


Definition cloud : entry :=
  mkEntry "Acme" "Cloud - Engineer" (decimal 9 1) (decimal 7 1) 0 (decimal 60 1)
    (decimal 60 1).
Definition cloud_df : DataFrame := mkDF canonical_columns [new_entry cloud].
Definition cloud_fs : FS := {[ CSV_FILE := to_csv cloud_df ]}.

(** A dataset in which no row has a company. *)
Definition companyless_df : DataFrame :=
  mkDF canonical_columns
    [delete "Company" (new_entry acme); delete "Company" (new_entry globex)].

(** Twenty offers, named A to T, with the packages 1, 2 and 3 several times
    each: a dataset long enough for numpy's quicksort to partition it. *)
Definition offer (i : nat) (lpa : Z) : Row :=
  new_entry (mkEntry (String (ascii_of_nat (65 + i)) EmptyString) "Engineer"
               (decimal lpa 1) (decimal 6 1) 0 (decimal 50 1) (decimal 50 1)).

Definition ties_df : DataFrame :=
  mkDF canonical_columns
    (zip_with offer (seq 0 20)
       [3; 3; 3; 1; 3; 3; 2; 1; 2; 2; 3; 1; 2; 3; 1; 1; 3; 2; 1; 2]%Z).




(** * Properties *)

Local Open Scope nat_scope.
Local Open Scope list_scope.

(** Decidable side conditions on concrete data are settled by evaluation. *)
Ltac by_decide := apply (bool_decide_unpack _); vm_compute; exact I.

(** ** Initialization of the store *)

Example init_columns_value :
  init_columns =
  [ "Company"; "Role"; "Package(LPA)"; "Eligibility_CGPA";
    "Backlogs_AllowedEligibility_10th"; "Eligibility_12th" ].
Proof. reflexivity. Qed.

(** C2 (the code departs from it). On a store without [placements.csv],
    [init_csv] creates the file with zero rows, but its header has six
    columns, not the seven canonical ones: the names Backlogs_Allowed and
    Eligibility_10th are fused into one. *)
Theorem init_csv_fresh_header :
  init_csv ∅ !! CSV_FILE =
    Some (mkCsv [ "Company"; "Role"; "Package(LPA)"; "Eligibility_CGPA";
                  "Backlogs_AllowedEligibility_10th"; "Eligibility_12th" ] []) ∧
  init_csv ∅ !! CSV_FILE ≠ Some (mkCsv canonical_columns []).
Proof. split; [reflexivity | by vm_compute]. Qed.

(** The same on any store that lacks the file. *)
Lemma init_csv_creates (fs : FS) :
  fs !! CSV_FILE = None →
  init_csv fs = <[CSV_FILE := mkCsv init_columns []]> fs.
Proof.
  intros Hfs. unfold init_csv. rewrite decide_False; [done|].
  rewrite Hfs. by intros [? ?].
Qed.

(** The other half of C2 holds: an existing file is left as it is, and
    initializing twice is initializing once. *)
Lemma init_csv_existing (fs : FS) :
  is_Some (fs !! CSV_FILE) → init_csv fs = fs.
Proof. intros Hfs. unfold init_csv. by rewrite decide_True. Qed.

Lemma init_csv_is_Some (fs : FS) : is_Some (init_csv fs !! CSV_FILE).
Proof.
  unfold init_csv. case_decide; [done|]. rewrite lookup_insert_eq. eauto.
Qed.

Lemma init_csv_idempotent (fs : FS) : init_csv (init_csv fs) = init_csv fs.
Proof. apply init_csv_existing, init_csv_is_Some. Qed.

(** What the fused header costs: on a freshly created store the eligibility
    check looks up a column that is not there, and raises. *)
Lemma fresh_store_check_raises re_compile argsort (p : profile) :
  main re_compile argsort ∅ (CheckEligibility p true) = None.
Proof. reflexivity. Qed.


(** ** Masks and boolean indexing *)

Section masks.
Context {A : Type}.
Implicit Types (l : list A) (f g : A → bool).

Lemma select_map f l : select (map f l) l = filter f l.
Proof.
  induction l as [|x l IH]; [done|]. simpl.
  rewrite filter_cons, IH. by destruct (f x).
Qed.

Lemma mask_and_map f g l :
  mask_and (map f l) (map g l) = map (λ x, f x && g x) l.
Proof. induction l as [|x l IH]; [done|]. simpl. by f_equal. Qed.

Lemma mask_or_map f g l :
  mask_or (map f l) (map g l) = map (λ x, f x || g x) l.
Proof. induction l as [|x l IH]; [done|]. simpl. by f_equal. Qed.

Lemma select_sublist (m : list bool) l : select m l `sublist_of` l.
Proof.
  revert m. induction l as [|x l IH]; intros [|[] m]; simpl;
    try constructor; try apply sublist_nil_l; apply IH.
Qed.

(** A cell-wise test that raises on no cell of the column is a total
    function of the row. *)
Lemma mapM_column {B C} (h : A → B) (t : B → option C) (d : C) l m :
  mapM t (map h l) = Some m → m = map (λ x, default d (t (h x))) l.
Proof.
  revert m. induction l as [|x l IH]; intros m; simpl.
  - by intros [= <-].
  - destruct (t (h x)) as [b|] eqn:Hb; simpl; [|done].
    destruct (mapM t (map h l)) as [m'|] eqn:Hm; simpl; [|done].
    intros [= <-]. simpl. f_equal. by apply IH.
Qed.

Lemma mapM_column_is_Some {B C} (h : A → B) (t : B → option C) l :
  (∀ x, x ∈ l → is_Some (t (h x))) → is_Some (mapM t (map h l)).
Proof.
  intros H. apply mapM_is_Some, Forall_forall. intros b Hb.
  apply list_elem_of_fmap in Hb as (x & -> & Hx). by apply H.
Qed.
End masks.

(** ** The eligibility filter *)

Lemma cell_le_true x (r : Row) c :
  default false (cell_le x (r !! c)) = true ↔ at_most r c x.
Proof.
  unfold at_most. destruct (r !! c) as [[s|q]|]; simpl.
  - split; [done|]. by intros (q & [=] & _).
  - rewrite bool_decide_eq_true. split; [eauto|]. by intros (q' & [= <-] & ?).
  - split; [done|]. by intros (q & [=] & _).
Qed.

Lemma cell_ge_true x (r : Row) c :
  default false (cell_ge x (r !! c)) = true ↔ at_least r c x.
Proof.
  unfold at_least. destruct (r !! c) as [[s|q]|]; simpl.
  - split; [done|]. by intros (q & [=] & _).
  - rewrite bool_decide_eq_true. split; [eauto|]. by intros (q' & [= <-] & ?).
  - split; [done|]. by intros (q & [=] & _).
Qed.

Lemma eligible_row_meets p r : eligible_row p r = true ↔ meets r p.
Proof.
  unfold eligible_row, meets.
  rewrite !andb_true_iff, !cell_le_true, cell_ge_true. tauto.
Qed.

(** Whenever the filter returns, it returns the rows passing the test. *)
Lemma filterEligible_Some df p eligible :
  filterEligible df p = Some eligible →
  eligible = mkDF (columns df) (filter (eligible_row p) (rows df)).
Proof.
  unfold filterEligible, getitem, series_le, series_ge, boolean_index.
  intros H. repeat case_decide; simplify_option_eq.
  repeat match goal with
  | H : mapM _ (map _ _) = Some _ |- _ => apply (mapM_column _ _ false) in H; subst
  end.
  rewrite !mask_and_map, select_map. done.
Qed.

Lemma numeric_column_le df c x :
  numeric_column df c → is_Some (getitem df c ≫= series_le x).
Proof.
  intros [Hc Hnum]. unfold getitem. rewrite decide_True by done. simpl.
  apply mapM_column_is_Some. intros r Hr.
  rewrite Forall_forall in Hnum. specialize (Hnum r Hr).
  by destruct (r !! c) as [[s|q]|]; simpl; eauto.
Qed.

Lemma numeric_column_ge df c x :
  numeric_column df c → is_Some (getitem df c ≫= series_ge x).
Proof.
  intros [Hc Hnum]. unfold getitem. rewrite decide_True by done. simpl.
  apply mapM_column_is_Some. intros r Hr.
  rewrite Forall_forall in Hnum. specialize (Hnum r Hr).
  by destruct (r !! c) as [[s|q]|]; simpl; eauto.
Qed.

Lemma filterEligible_total df p :
  has_thresholds df → is_Some (filterEligible df p).
Proof.
  unfold has_thresholds, threshold_columns. rewrite !Forall_cons.
  intros (H1 & H2 & H3 & H4 & _). unfold filterEligible.
  destruct (numeric_column_le df _ (user_cgpa p) H1) as [m1 ->].
  destruct (numeric_column_ge df _ (Qc_of_Z (user_backlogs p)) H2) as [m2 ->].
  destruct (numeric_column_le df _ (user_10th p) H3) as [m3 ->].
  destruct (numeric_column_le df _ (user_12th p) H4) as [m4 ->].
  simpl. eauto.
Qed.

Lemma filterEligible_rows (df : DataFrame) (p : profile) :
  has_thresholds df →
  ∃ eligible, filterEligible df p = Some eligible ∧
    ∀ r, r ∈ rows eligible ↔ r ∈ rows df ∧ meets r p.
Proof.
  intros Hdf. destruct (filterEligible_total df p Hdf) as [eligible Hel].
  exists eligible. split; [done|]. intros r.
  rewrite (filterEligible_Some _ _ _ Hel). simpl.
  rewrite list_elem_of_filter, Is_true_true, eligible_row_meets. tauto.
Qed.

(** C1. For every dataset and every profile, the eligibility filter returns
    a frame, and a row is in it if and only if it is a row of the dataset
    and all four inequalities hold: Eligibility_CGPA <= CGPA,
    Backlogs_Allowed >= Backlogs, Eligibility_10th <= Pct10th and
    Eligibility_12th <= Pct12th. *)
Theorem filterEligible_iff (df : DataFrame) (p : profile) :
  has_thresholds df →
  ∃ eligible, filterEligible df p = Some eligible ∧
    ∀ r, r ∈ rows eligible ↔ r ∈ rows df ∧ meets r p.
Proof. apply filterEligible_rows. Qed.

Lemma filterEligible_iff_witness :
  ∃ eligible, filterEligible sample_df weak_profile = Some eligible ∧
    ∀ r, r ∈ rows eligible ↔ r ∈ rows sample_df ∧ meets r weak_profile.
Proof. apply (filterEligible_iff sample_df weak_profile). by_decide. Defined.

(** The scenarios of the specification: the candidate with CGPA 8.0 gets the
    Acme row, the one with CGPA 7.0 does not. *)
Example filterEligible_acme_pass :
  filterEligible (mkDF canonical_columns [new_entry acme]) strong_profile
  = Some (mkDF canonical_columns [new_entry acme]).
Proof. by vm_compute. Qed.

Example filterEligible_acme_fail :
  filterEligible (mkDF canonical_columns [new_entry acme]) weak_profile
  = Some (mkDF canonical_columns []).
Proof. by vm_compute. Qed.

(** C10. A row in which one of the four threshold cells is missing is never
    in the result of the eligibility filter, whatever the profile, and the
    missing cell raises no error: the filter still returns. *)
Theorem filterEligible_missing_threshold (df : DataFrame) (p : profile)
    (r : Row) (c : string) :
  has_thresholds df → c ∈ threshold_columns → r !! c = None →
  ∃ eligible, filterEligible df p = Some eligible ∧ r ∉ rows eligible.
Proof.
  intros Hdf Hc Hr. destruct (filterEligible_rows df p Hdf) as (eligible & Hel & Hin).
  exists eligible. split; [done|]. rewrite Hin. intros [_ (H1 & H2 & H3 & H4)].
  unfold threshold_columns in Hc. rewrite !elem_of_cons, elem_of_nil in Hc.
  destruct Hc as [->|[->|[->|[->|[]]]]];
    [ destruct H1 as (q & ? & _) | destruct H2 as (q & ? & _)
    | destruct H3 as (q & ? & _) | destruct H4 as (q & ? & _) ]; congruence.
Qed.

Lemma filterEligible_missing_threshold_witness :
  ∃ eligible, filterEligible gappy_df strong_profile = Some eligible ∧
    no_10th ∉ rows eligible.
Proof.
  apply (filterEligible_missing_threshold gappy_df strong_profile no_10th
           "Eligibility_10th"); [by_decide | by_decide | reflexivity].
Defined.

(** ** The export of the eligibility check *)

(** C3 as stated fails: after a successful check the export file holds
    every column of the dataset, not the three displayed ones. *)
Lemma export_has_all_columns :
  ∃ fs' out,
    check_eligibility acme_fs (mkDF canonical_columns [new_entry acme])
      strong_profile true = Some (fs', out) ∧
    header <$> fs' !! EXPORT_FILE = Some canonical_columns ∧
    header <$> fs' !! EXPORT_FILE ≠ Some shown_columns.
Proof. eexists _, _. split; [reflexivity|]. split; [reflexivity | by vm_compute]. Qed.

Lemma empty_false_rows df : empty df = false → rows df ≠ [].
Proof. unfold empty. by destruct (rows df). Qed.

Lemma getitems_Some df cs :
  Forall (λ c, c ∈ columns df) cs →
  ∃ shown, getitems df cs = Some shown ∧ columns shown = cs.
Proof. intros H. unfold getitems. rewrite decide_True by done. eauto. Qed.

(** C3, amended. On a check that finds eligible rows the export file is
    replaced by the CSV of the eligible rows with all the columns of the
    dataset, the download button carries the same CSV, and only the table on
    screen is cut down to Company, Role and Package(LPA); the other files
    are untouched.  On a check that finds none, the store is unchanged and
    no download is offered. *)
Theorem check_eligibility_export (fs : FS) (df : DataFrame) (p : profile) :
  has_thresholds df → Forall (λ c, c ∈ columns df) shown_columns →
  ∃ eligible fs' out,
    filterEligible df p = Some eligible ∧
    check_eligibility fs df p true = Some (fs', out) ∧
    if empty eligible
    then fs' = fs ∧ out = [st_error "No companies available for your profile."]
    else
      fs' !! EXPORT_FILE = Some (to_csv eligible) ∧
      header (to_csv eligible) = columns df ∧
      (∀ f, f ≠ EXPORT_FILE → fs' !! f = fs !! f) ∧
      ∃ shown, columns shown = shown_columns ∧
        out = [ st_success "You are eligible for the following companies:";
                st_dataframe shown;
                st_download_button "Download Eligible Companies"
                  (to_csv eligible) EXPORT_FILE ].
Proof.
  intros Hdf Hcols.
  destruct (filterEligible_total df p Hdf) as [eligible Hel].
  exists eligible. unfold check_eligibility. rewrite Hel. simpl.
  destruct (empty eligible) eqn:Hempty.
  - eexists _, _. eauto.
  - assert (columns eligible = columns df) as Hc.
    { by rewrite (filterEligible_Some _ _ _ Hel). }
    destruct (getitems_Some eligible shown_columns) as (shown & Hshown & Hsc).
    { by rewrite Hc. }
    unfold shown_columns in Hshown. rewrite Hshown. simpl.
    eexists _, _. split; [done|]. split; [done|].
    split; [by rewrite lookup_insert_eq|]. split; [done|].
    split; [intros f Hf; by rewrite lookup_insert_ne|]. eauto.
Qed.

Lemma check_eligibility_export_witness :
  ∃ eligible fs' out,
    filterEligible sample_df weak_profile = Some eligible ∧
    check_eligibility acme_fs sample_df weak_profile true = Some (fs', out) ∧
    if empty eligible
    then fs' = acme_fs ∧ out = [st_error "No companies available for your profile."]
    else
      fs' !! EXPORT_FILE = Some (to_csv eligible) ∧
      header (to_csv eligible) = columns sample_df ∧
      (∀ f, f ≠ EXPORT_FILE → fs' !! f = acme_fs !! f) ∧
      ∃ shown, columns shown = shown_columns ∧
        out = [ st_success "You are eligible for the following companies:";
                st_dataframe shown;
                st_download_button "Download Eligible Companies"
                  (to_csv eligible) EXPORT_FILE ].
Proof.
  apply (check_eligibility_export acme_fs sample_df weak_profile); by_decide.
Defined.

(** ** Search *)

Lemma starts_with_spec p s : starts_with p s = true ↔ ∃ post, s = p +:+ post.
Proof.
  revert s. induction p as [|a p IH]; intros s; simpl.
  - split; [eauto|done].
  - destruct s as [|b s].
    + split; [done|]. by intros [post [=]].
    + rewrite andb_true_iff, bool_decide_eq_true, IH. split.
      * intros [-> [post ->]]. eauto.
      * intros [post [= -> ->]]. eauto.
Qed.

Lemma find_in_spec p s :
  find_in p s = true ↔ ∃ pre post, s = pre +:+ p +:+ post.
Proof.
  induction s as [|a s IH]; simpl; rewrite orb_true_iff.
  - rewrite starts_with_spec. split.
    + intros [[post H]|[=]]. by exists "", post.
    + intros (pre & post & H). left. destruct pre; [eauto|done].
  - rewrite starts_with_spec, IH. split.
    + intros [[post H]|(pre & post & ->)].
      * by exists "", post.
      * by exists (String a pre), post.
    + intros (pre & post & H). destruct pre as [|b pre]; simpl in H.
      * left. eauto.
      * right. injection H as -> ->. eauto.
Qed.

Section search.
Variable re_compile : string → option (string → bool).

Lemma compile_literal t :
  is_literal t = true →
  compile_ignorecase re_compile t = Some (λ s, find_in (lower t) (lower s)).
Proof. intros H. unfold compile_ignorecase. by rewrite H. Qed.

Lemma cell_contains_literal t (r : Row) c :
  cell_contains (λ s, find_in (lower t) (lower s)) (r !! c) = true ↔
  field_contains r c t.
Proof.
  unfold field_contains, contains_ci. destruct (r !! c) as [[s|q]|]; simpl.
  - rewrite find_in_spec. split; [eauto|]. by intros (s' & [= <-] & ?).
  - split; [done|]. by intros (s' & [=] & _).
  - split; [done|]. by intros (s' & [=] & _).
Qed.

(** An empty term: no filter is applied. *)
Lemma search_empty_term df : search re_compile df "" = Some df.
Proof. reflexivity. Qed.

(** Whenever the search returns, the term compiled and the result holds
    the rows in which the compiled pattern finds a match. *)
Lemma search_Some df t found :
  t ≠ "" → search re_compile df t = Some found →
  ∃ f, compile_ignorecase re_compile t = Some f ∧
    found = mkDF (columns df) (filter (search_row f) (rows df)).
Proof.
  intros Ht. unfold search, getitem, str_contains, boolean_index.
  rewrite decide_False by done. intros H.
  repeat case_decide; simplify_option_eq.
  destruct (is_object (map _ (rows df))); [|done].
  destruct (is_object (map _ (rows df))); [|done].
  destruct (compile_ignorecase re_compile t) as [f|]; [|done].
  simplify_option_eq. exists f. split; [done|].
  rewrite !map_map, (mask_or_map (λ r : Row, cell_contains f (r !! "Role"))).
  by rewrite select_map.
Qed.

Lemma search_total df t :
  text_column df "Role" → text_column df "Company" →
  is_Some (compile_ignorecase re_compile t) →
  is_Some (search re_compile df t).
Proof.
  intros [Hr Hro] [Hc Hco] [f Hf]. unfold search, getitem, str_contains.
  case_decide; [done|]. rewrite !decide_True by done. simpl.
  rewrite Hro, Hco, Hf. simpl. eauto.
Qed.

Lemma search_compiled df t f :
  t ≠ "" → text_column df "Role" → text_column df "Company" →
  compile_ignorecase re_compile t = Some f →
  search re_compile df t = Some (mkDF (columns df) (filter (search_row f) (rows df))).
Proof.
  intros Ht Hro Hco Hf.
  destruct (search_total df t Hro Hco) as [found Hfound]; [by rewrite Hf|].
  destruct (search_Some _ _ _ Ht Hfound) as (f' & Hf' & ->).
  rewrite Hf in Hf'. by injection Hf' as <-.
Qed.

Lemma search_literal df t :
  t ≠ "" → is_literal t = true →
  text_column df "Role" → text_column df "Company" →
  ∃ found, search re_compile df t = Some found ∧
    columns found = columns df ∧
    ∀ r, r ∈ rows found ↔
      r ∈ rows df ∧ (field_contains r "Company" t ∨ field_contains r "Role" t).
Proof.
  intros Ht Hlit Hro Hco.
  destruct (search_total df t Hro Hco) as [found Hfound].
  { rewrite compile_literal by done. eauto. }
  exists found. split; [done|].
  destruct (search_Some _ _ _ Ht Hfound) as (f & Hf & ->).
  rewrite compile_literal in Hf by done. injection Hf as <-.
  split; [done|]. intros r. simpl.
  rewrite list_elem_of_filter, Is_true_true. unfold search_row.
  rewrite orb_true_iff, !cell_contains_literal. tauto.
Qed.
End search.

(** C5 as stated fails: a row whose Company is missing is found through its
    Role. *)
Lemma search_row_without_company :
  search no_regex nameless_df "eng" = Some (mkDF canonical_columns [nameless]) ∧
  nameless !! "Company" = None.
Proof. split; reflexivity. Qed.

(** C5, amended. An empty term returns the dataset unchanged.  For an
    ASCII term without regular-expression metacharacters, on a dataset whose
    Company and Role columns are text columns of ASCII texts, the search
    returns a frame, and a row is in it if and only if it is a row of the
    dataset whose Company cell or Role cell is present and contains the
    term, case ignored.  A missing cell does not match and raises no error,
    but the row is still found through its other cell. *)
Theorem search_spec (re_compile : string → option (string → bool))
    (df : DataFrame) :
  search re_compile df "" = Some df ∧
  ∀ t, t ≠ "" → is_literal t = true → is_ascii t = true →
    text_column df "Role" → text_column df "Company" → ascii_names df →
    ∃ found, search re_compile df t = Some found ∧
      columns found = columns df ∧
      ∀ r, r ∈ rows found ↔
        r ∈ rows df ∧ (field_contains r "Company" t ∨ field_contains r "Role" t).
Proof.
  split; [apply search_empty_term|].
  intros t Ht Hlit _ Hro Hco _. by apply search_literal.
Qed.

Lemma search_spec_witness :
  search no_regex nameless_df "" = Some nameless_df ∧
  ∃ found, search no_regex nameless_df "eng" = Some found ∧
    columns found = columns nameless_df ∧
    ∀ r, r ∈ rows found ↔
      r ∈ rows nameless_df ∧
      (field_contains r "Company" "eng" ∨ field_contains r "Role" "eng").
Proof.
  split; [apply (search_spec no_regex nameless_df)|].
  apply (search_spec no_regex nameless_df);
    [done | reflexivity | reflexivity | by_decide..].
Defined.

(** A term with a metacharacter is a regular expression, not a substring:
    with an engine in which the pattern [a.c] matches the text [abc], as it
    does in Python, the search finds a row that contains the term nowhere. *)
Lemma search_term_is_a_pattern (re_compile : string → option (string → bool)) f :
  re_compile "a.c" = Some f → f "abc" = true →
  search re_compile abc_df "a.c" = Some abc_df ∧
  ¬ field_contains (new_entry abc) "Company" "a.c" ∧
  ¬ field_contains (new_entry abc) "Role" "a.c".
Proof.
  intros Hre Hf. split.
  - rewrite (search_compiled re_compile abc_df "a.c" f);
      [| done | by_decide | by_decide | done].
    unfold abc_df. simpl. f_equal.
    assert (search_row f (new_entry abc) = true) as Hrow.
    { unfold search_row.
      change (new_entry abc !! "Company") with (Some (VStr "abc")).
      simpl. rewrite Hf. apply orb_true_r. }
    rewrite filter_cons, decide_True; [done|]. by rewrite Hrow.
  - split; intros (s & Hs & Hc); vm_compute in Hs; injection Hs as <-;
      apply find_in_spec in Hc; by vm_compute in Hc.
Qed.

(** C9. The search and the eligibility filter each return a subsequence of
    the dataset: whenever they return, the result has the columns of the
    dataset and its rows are rows of the dataset, unmodified and in their
    original order; and they do return when the columns they read have the
    expected type and the term compiles. *)
Theorem search_filterEligible_subsequence
    (re_compile : string → option (string → bool))
    (df : DataFrame) (t : string) (p : profile) :
  (∀ found, search re_compile df t = Some found →
     columns found = columns df ∧ rows found `sublist_of` rows df) ∧
  (∀ eligible, filterEligible df p = Some eligible →
     columns eligible = columns df ∧ rows eligible `sublist_of` rows df) ∧
  (text_column df "Role" → text_column df "Company" →
     is_Some (compile_ignorecase re_compile t) →
     is_Some (search re_compile df t)) ∧
  (has_thresholds df → is_Some (filterEligible df p)).
Proof.
  split; [|split; [|split]].
  - intros found Hfound. destruct (decide (t = "")) as [->|Ht].
    + rewrite search_empty_term in Hfound. by injection Hfound as <-.
    + destruct (search_Some _ _ _ _ Ht Hfound) as (f & _ & ->).
      split; [done|]. apply sublist_filter.
  - intros eligible ->%filterEligible_Some. split; [done|]. apply sublist_filter.
  - apply search_total.
  - apply filterEligible_total.
Qed.

Lemma search_filterEligible_subsequence_witness :
  ∃ found eligible,
    search no_regex sample_df "eng" = Some found ∧
    filterEligible sample_df weak_profile = Some eligible ∧
    rows found `sublist_of` rows sample_df ∧
    rows eligible `sublist_of` rows sample_df.
Proof.
  destruct (search_filterEligible_subsequence no_regex sample_df "eng" weak_profile)
    as (Hs & He & Hst & Het).
  destruct Hst as [found Hfound]; [by_decide | by_decide | by eexists |].
  destruct Het as [eligible Heligible]; [by_decide|].
  exists found, eligible. split; [done|]. split; [done|].
  split; [by apply Hs | by apply He].
Defined.

(** ** Sorting by package *)

(** *** Positions and lookups *)

Section positions.
Context {A : Type}.
Implicit Types (l : list A) (js : list nat).

Lemma omap_lookup_seq_from l1 l2 :
  omap (λ i, (l1 ++ l2) !! i) (seq (length l1) (length l2)) = l2.
Proof.
  revert l1. induction l2 as [|x l2 IH]; intros l1; [done|].
  csimpl. rewrite list_lookup_middle by done. csimpl. f_equal.
  specialize (IH (l1 ++ [x])). rewrite <-(assoc_L (++)) in IH. simpl in IH.
  rewrite length_app in IH. simpl in IH.
  by replace (length l1 + 1) with (S (length l1)) in IH by lia.
Qed.

Lemma omap_lookup_seq l : omap (λ i, l !! i) (seq 0 (length l)) = l.
Proof. apply (omap_lookup_seq_from []). Qed.

Lemma omap_lookup_Permutation l js :
  js ≡ₚ seq 0 (length l) → omap (λ i, l !! i) js ≡ₚ l.
Proof. intros ->. by rewrite omap_lookup_seq. Qed.

Lemma omap_lookup_fmap {B} (f : A → B) l js :
  omap (λ j, (f <$> l) !! j) js = f <$> omap (λ j, l !! j) js.
Proof.
  induction js as [|j js IH]; [done|]. csimpl.
  rewrite IH, list_lookup_fmap. by destruct (l !! j).
Qed.

Lemma omap_reverse {B} (f : A → option B) l :
  omap f (reverse l) = reverse (omap f l).
Proof.
  induction l as [|x l IH]; [done|]. csimpl.
  rewrite reverse_cons, omap_app, IH. csimpl.
  destruct (f x); csimpl; [by rewrite reverse_cons | by rewrite app_nil_r].
Qed.
End positions.

Lemma StronglySorted_reverse_flip {A} (R : relation A) (l : list A) :
  StronglySorted R l → StronglySorted (flip R) (reverse l).
Proof.
  induction 1 as [|x l Hl IH Hx]; [constructor|].
  rewrite reverse_cons. apply StronglySorted_app_2; [|done|repeat constructor].
  intros y z Hy ->%list_elem_of_singleton. rewrite Forall_forall in Hx.
  apply Hx. by apply elem_of_reverse.
Qed.

(** *** The present and the missing keys *)

Section keys.
Implicit Types (items : list (option Qc)) (s i : nat).

Lemma split_present_missing s items :
  (omap present_at (zip (seq s (length items)) items)).*1 ++
  omap missing_at (zip (seq s (length items)) items) ≡ₚ seq s (length items).
Proof.
  revert s. induction items as [|[q|] items IH]; intros s; simpl; [done|..].
  - by rewrite IH.
  - rewrite <-Permutation_middle. by rewrite IH.
Qed.

Lemma present_lookup s items i q :
  (i, q) ∈ omap present_at (zip (seq s (length items)) items) →
  s ≤ i ∧ items !! (i - s) = Some (Some q).
Proof.
  revert s. induction items as [|[q'|] items IH]; intros s; simpl.
  - by intros ?%elem_of_nil.
  - intros [[= -> ->]|[Hs Hi]%IH]%elem_of_cons.
    + by rewrite Nat.sub_diag.
    + split; [lia|]. by replace (i - s) with (S (i - S s)) by lia.
  - intros [Hs Hi]%IH. split; [lia|]. by replace (i - s) with (S (i - S s)) by lia.
Qed.

Lemma missing_lookup s items i :
  i ∈ omap missing_at (zip (seq s (length items)) items) →
  s ≤ i ∧ items !! (i - s) = Some None.
Proof.
  revert s. induction items as [|[q'|] items IH]; intros s; simpl.
  - by intros ?%elem_of_nil.
  - intros [Hs Hi]%IH. split; [lia|]. by replace (i - s) with (S (i - S s)) by lia.
  - intros [->|[Hs Hi]%IH]%elem_of_cons.
    + by rewrite Nat.sub_diag.
    + split; [lia|]. by replace (i - s) with (S (i - S s)) by lia.
Qed.

Lemma all_present_no_missing s items :
  Forall is_Some items → omap missing_at (zip (seq s (length items)) items) = [].
Proof.
  revert s. induction items as [|k items IH]; intros s; [done|].
  intros [[q ->] Hitems]%Forall_cons. simpl. by apply IH.
Qed.

Lemma all_present_keys s items :
  Forall is_Some items →
  Some <$> (omap present_at (zip (seq s (length items)) items)).*2 = items.
Proof.
  revert s. induction items as [|k items IH]; intros s; [done|].
  intros [[q ->] Hitems]%Forall_cons. simpl. f_equal. by apply IH.
Qed.
End keys.

(** *** [nargsort] under the contract of [argsort] *)

Section sorting.
Variable argsort : list Qc → list nat.
Hypothesis argsort_contract : argsort_ok argsort.

Lemma by_key_Permutation pr : by_key argsort pr ≡ₚ pr.
Proof.
  destruct (argsort_contract pr.*2) as [Hperm _].
  apply omap_lookup_Permutation. by rewrite length_fmap in Hperm.
Qed.

Lemma by_key_sorted pr : StronglySorted Qcle (by_key argsort pr).*2.
Proof.
  destruct (argsort_contract pr.*2) as [_ Hsorted].
  unfold by_key. by rewrite <-omap_lookup_fmap.
Qed.

Lemma nargsort_ascending items :
  nargsort argsort true items =
  (by_key argsort (present_keys items)).*1 ++ missing_keys items.
Proof. unfold nargsort, by_key. by rewrite omap_lookup_fmap. Qed.

Lemma nargsort_descending items :
  nargsort argsort false items =
  reverse (by_key argsort (reverse (present_keys items))).*1 ++ missing_keys items.
Proof.
  unfold nargsort, by_key. fold (present_keys items) (missing_keys items).
  f_equal. rewrite <-!fmap_reverse, omap_lookup_fmap.
  by rewrite (fmap_reverse fst (omap _ _)).
Qed.

Lemma nargsort_Permutation ascending items :
  nargsort argsort ascending items ≡ₚ seq 0 (length items).
Proof.
  rewrite <-(split_present_missing 0 items). fold (present_keys items).
  destruct ascending.
  - by rewrite nargsort_ascending, by_key_Permutation.
  - rewrite nargsort_descending, reverse_Permutation, by_key_Permutation.
    by rewrite fmap_reverse, reverse_Permutation.
Qed.

(** *** [sort_values] on the Package column *)

Lemma sort_values_Some df ascending sorted :
  sort_values argsort df "Package(LPA)" ascending = Some sorted →
  sorted = take_rows df (nargsort argsort ascending (package_of <$> rows df)).
Proof.
  unfold sort_values, getitem. intros H.
  case_decide; simplify_option_eq.
  match goal with
  | H : mapM _ _ = Some _ |- _ => apply (mapM_column _ _ None) in H; by subst
  end.
Qed.

Lemma sort_values_total df ascending :
  has_packages df → is_Some (sort_values argsort df "Package(LPA)" ascending).
Proof.
  intros [Hc Hnum]. unfold sort_values, getitem.
  rewrite decide_True by done. simpl.
  destruct (mapM_column_is_Some (λ r : Row, r !! "Package(LPA)") cell_num (rows df))
    as [items ->]; [|by eexists].
  intros r Hr. rewrite Forall_forall in Hnum. specialize (Hnum r Hr).
  by destruct (r !! "Package(LPA)") as [[s|q]|].
Qed.

Lemma take_rows_Permutation df ascending :
  rows (take_rows df (nargsort argsort ascending (package_of <$> rows df)))
  ≡ₚ rows df.
Proof.
  simpl. apply omap_lookup_Permutation.
  rewrite nargsort_Permutation. by rewrite length_fmap.
Qed.

(** The rows at the positions of present keys have those keys; the rows
    at the positions of missing keys have none. *)
Lemma rows_at_present (rs : list Row) (sel : list (nat * Qc)) :
  Forall (λ ik, (package_of <$> rs) !! ik.1 = Some (Some ik.2)) sel →
  package_of <$> omap (λ i, rs !! i) sel.*1 = Some <$> sel.*2.
Proof.
  induction 1 as [|[i q] sel Hi _ IH]; [done|]. csimpl in *.
  rewrite list_lookup_fmap in Hi. destruct (rs !! i) as [r|]; [|done].
  csimpl. injection Hi as ->. by rewrite IH.
Qed.

Lemma rows_at_missing (rs : list Row) (nan : list nat) :
  Forall (λ i, (package_of <$> rs) !! i = Some None) nan →
  Forall (λ r, package_of r = None) (omap (λ i, rs !! i) nan).
Proof.
  induction 1 as [|i nan Hi _ IH]; [constructor|]. csimpl.
  rewrite list_lookup_fmap in Hi. destruct (rs !! i) as [r|]; [|done].
  constructor; [|done]. by injection Hi.
Qed.

Lemma present_keys_lookup items :
  Forall (λ ik, items !! ik.1 = Some (Some ik.2)) (present_keys items).
Proof.
  apply Forall_forall. intros [i q] [_ Hi]%present_lookup.
  by rewrite Nat.sub_0_r in Hi.
Qed.

Lemma missing_keys_lookup items :
  Forall (λ i, items !! i = Some None) (missing_keys items).
Proof.
  apply Forall_forall. intros i [_ Hi]%missing_lookup.
  by rewrite Nat.sub_0_r in Hi.
Qed.

(** The sorted frame: the rows with a package in the order asked for, then
    the rows without one. *)
Lemma take_rows_sorted df order :
  order ≠ SortNone →
  ∃ priced unpriced ks,
    rows (take_rows df (nargsort argsort
            (if order is LowestToHighest then true else false)
            (package_of <$> rows df))) = priced ++ unpriced ∧
    package_of <$> priced = Some <$> ks ∧
    Forall (λ r, package_of r = None) unpriced ∧
    StronglySorted (in_order order) ks.
Proof.
  intros Horder. set (items := package_of <$> rows df).
  exists (omap (λ i, rows df !! i)
            (if order is LowestToHighest
             then (by_key argsort (present_keys items)).*1
             else reverse (by_key argsort (reverse (present_keys items))).*1)),
         (omap (λ i, rows df !! i) (missing_keys items)),
         (if order is LowestToHighest
          then (by_key argsort (present_keys items)).*2
          else reverse (by_key argsort (reverse (present_keys items))).*2).
  destruct order; [done|..]; simpl.
  - rewrite nargsort_descending, omap_app. split; [done|].
    split; [|split].
    + rewrite <-!fmap_reverse. apply rows_at_present.
      rewrite Forall_reverse, by_key_Permutation, Forall_reverse.
      apply present_keys_lookup.
    + apply rows_at_missing, missing_keys_lookup.
    + apply StronglySorted_reverse_flip, by_key_sorted.
  - rewrite nargsort_ascending, omap_app. split; [done|].
    split; [|split].
    + apply rows_at_present. rewrite by_key_Permutation.
      apply present_keys_lookup.
    + apply rows_at_missing, missing_keys_lookup.
    + apply by_key_sorted.
Qed.

(** *** Distinct packages: the sorted order is unique *)

Lemma StronglySorted_snd (l : list (nat * Qc)) :
  StronglySorted Qcle l.*2 → StronglySorted (λ a b, (a.2 ≤ b.2)%Qc) l.
Proof.
  induction l as [|a l IH]; [constructor|]. csimpl.
  intros [Ha Hl]%StronglySorted_cons. constructor; [by apply IH|].
  by rewrite Forall_fmap in Ha.
Qed.

Lemma NoDup_snd_inj (l : list (nat * Qc)) a b :
  NoDup l.*2 → a ∈ l → b ∈ l → a.2 = b.2 → a = b.
Proof.
  induction l as [|c l IH]; csimpl; [by intros _ ?%elem_of_nil|].
  intros [Hc Hl]%NoDup_cons [->|Ha]%elem_of_cons [->|Hb]%elem_of_cons Hab;
    [done|..|by apply IH].
  - destruct Hc. rewrite Hab. by apply list_elem_of_fmap_2.
  - destruct Hc. rewrite <-Hab. by apply list_elem_of_fmap_2.
Qed.

Lemma by_key_reverse pr :
  NoDup pr.*2 → by_key argsort (reverse pr) = by_key argsort pr.
Proof.
  intros Hnodup.
  apply (StronglySorted_unique_strong (λ a b, (a.2 ≤ b.2)%Qc)).
  - intros a b Ha Hb Hab Hba.
    rewrite by_key_Permutation, reverse_Permutation in Ha.
    rewrite by_key_Permutation in Hb.
    apply (NoDup_snd_inj pr); [done..|]. by apply Qcle_antisym.
  - apply StronglySorted_snd, by_key_sorted.
  - apply StronglySorted_snd, by_key_sorted.
  - by rewrite !by_key_Permutation, reverse_Permutation.
Qed.

Lemma distinct_packages_items df :
  distinct_packages df →
  Forall is_Some (package_of <$> rows df) ∧
  NoDup (present_keys (package_of <$> rows df)).*2.
Proof.
  intros [Hall Hnodup]. assert (Forall is_Some (package_of <$> rows df)) as H.
  { by apply Forall_fmap. }
  split; [done|]. apply (NoDup_fmap_1 Some).
  unfold present_keys. by rewrite all_present_keys.
Qed.

Lemma distinct_packages_has_packages df :
  "Package(LPA)" ∈ columns df → distinct_packages df → has_packages df.
Proof.
  intros Hc [Hall _]. split; [done|]. eapply Forall_impl; [done|].
  intros r [q Hq]. unfold package_of in Hq.
  by destruct (r !! "Package(LPA)") as [[s|q']|].
Qed.

Lemma reverse_descending df :
  distinct_packages df →
  reverse (rows (take_rows df (nargsort argsort false (package_of <$> rows df))))
  = rows (take_rows df (nargsort argsort true (package_of <$> rows df))).
Proof.
  intros [Hall Hnodup]%distinct_packages_items. simpl.
  rewrite nargsort_descending, nargsort_ascending.
  unfold missing_keys. rewrite all_present_no_missing, !app_nil_r by done.
  rewrite <-omap_reverse, reverse_involutive. by rewrite by_key_reverse.
Qed.

Lemma sortByPackage_sorted df order :
  has_packages df → order ≠ SortNone →
  ∃ sorted, sortByPackage argsort df order = Some sorted ∧
    columns sorted = columns df ∧
    rows sorted ≡ₚ rows df ∧
    ∃ priced unpriced ks,
      rows sorted = priced ++ unpriced ∧
      package_of <$> priced = Some <$> ks ∧
      Forall (λ r, package_of r = None) unpriced ∧
      StronglySorted (in_order order) ks.
Proof.
  intros Hdf Horder.
  set (ascending := if order is LowestToHighest then true else false).
  destruct (sort_values_total df ascending Hdf) as [sorted Hsorted].
  exists sorted. split; [by destruct order|].
  apply sort_values_Some in Hsorted as ->. split; [done|].
  split; [apply take_rows_Permutation|]. by apply take_rows_sorted.
Qed.

Lemma sortByPackage_reverse df :
  "Package(LPA)" ∈ columns df → distinct_packages df →
  ∃ desc asc,
    sortByPackage argsort df HighestToLowest = Some desc ∧
    sortByPackage argsort df LowestToHighest = Some asc ∧
    reverse (rows desc) = rows asc.
Proof.
  intros Hc Hdf. pose proof (distinct_packages_has_packages df Hc Hdf) as Hp.
  destruct (sort_values_total df false Hp) as [desc Hdesc].
  destruct (sort_values_total df true Hp) as [asc Hasc].
  exists desc, asc. split; [done|]. split; [done|].
  apply sort_values_Some in Hdesc as ->. apply sort_values_Some in Hasc as ->.
  by apply reverse_descending.
Qed.
End sorting.

(** *** The insertion sort meets the contract *)

Section insertion.
Variable before : Qc → Qc → bool.
Hypothesis before_true : ∀ a b, before a b = true → (a ≤ b)%Qc.
Hypothesis before_false : ∀ a b, before a b = false → (b ≤ a)%Qc.
Variable ks : list Qc.

Lemma insert_pos_Permutation i l : insert_pos before ks i l ≡ₚ i :: l.
Proof.
  induction l as [|j l IH]; [done|]. simpl.
  destruct (before _ _); [done|]. by rewrite IH, Permutation_swap.
Qed.

Lemma insert_pos_sorted i l :
  StronglySorted Qcle (key_at ks <$> l) →
  StronglySorted Qcle (key_at ks <$> insert_pos before ks i l).
Proof.
  induction l as [|j l IH]; [repeat constructor|]. csimpl.
  intros [Hj Hl]%StronglySorted_cons.
  destruct (before (key_at ks i) (key_at ks j)) eqn:Hij; csimpl.
  - apply before_true in Hij. repeat constructor; [done..|].
    eapply Forall_impl; [done|]. intros a Ha. by etrans.
  - apply before_false in Hij. constructor; [by apply IH|].
    rewrite insert_pos_Permutation. by constructor.
Qed.

Lemma foldr_insert_Permutation js : foldr (insert_pos before ks) [] js ≡ₚ js.
Proof.
  induction js as [|j js IH]; [done|]. simpl.
  by rewrite insert_pos_Permutation, IH.
Qed.

Lemma foldr_insert_sorted js :
  StronglySorted Qcle (key_at ks <$> foldr (insert_pos before ks) [] js).
Proof.
  induction js as [|j js IH]; [constructor|]. simpl. by apply insert_pos_sorted.
Qed.

Lemma omap_lookup_key_at js :
  Forall (λ j, j < length ks) js → omap (λ j, ks !! j) js = key_at ks <$> js.
Proof.
  induction 1 as [|j js Hj _ IH]; [done|]. csimpl.
  destruct (lookup_lt_is_Some_2 ks j Hj) as [k Hk].
  unfold key_at at 1. rewrite Hk, IH. done.
Qed.

Lemma insertion_argsort_contract :
  insertion_argsort before ks ≡ₚ seq 0 (length ks) ∧
  StronglySorted Qcle (omap (λ j, ks !! j) (insertion_argsort before ks)).
Proof.
  unfold insertion_argsort. split; [apply foldr_insert_Permutation|].
  rewrite omap_lookup_key_at; [apply foldr_insert_sorted|].
  rewrite foldr_insert_Permutation. apply Forall_seq. lia.
Qed.
End insertion.

Lemma stable_argsort_ok : argsort_ok stable_argsort.
Proof.
  intros ks. apply insertion_argsort_contract; intros a b.
  - by rewrite bool_decide_eq_true.
  - rewrite bool_decide_eq_false. intros H. by apply Qclt_le_weak, Qcnot_le_lt.
Qed.

(** *** A sorting routine that keeps ties *)

Lemma insert_pos_le_filter ks q i l :
  filter (λ j, ks !! j = Some q) (insert_pos (λ a b, bool_decide (a ≤ b)%Qc) ks i l)
  = filter (λ j, ks !! j = Some q) (i :: l).
Proof.
  induction l as [|j l IH]; [done|]. simpl.
  destruct (bool_decide (key_at ks i ≤ key_at ks j)%Qc) eqn:Hij; [done|].
  rewrite filter_cons, IH, !filter_cons.
  destruct (decide (ks !! j = Some q)) as [Hj|Hj];
    destruct (decide (ks !! i = Some q)) as [Hi|Hi]; try done.
  apply bool_decide_eq_false in Hij. destruct Hij.
  unfold key_at. rewrite Hi, Hj. simpl. apply Qcle_refl.
Qed.

Lemma stable_argsort_stable : argsort_stable stable_argsort.
Proof.
  intros ks q. unfold stable_argsort, insertion_argsort.
  induction (seq 0 (length ks)) as [|j js IH]; [done|]. simpl.
  by rewrite insert_pos_le_filter, !filter_cons, IH.
Qed.

Section stable.
Variable argsort : list Qc → list nat.
Hypothesis argsort_contract : argsort_ok argsort.
Hypothesis argsort_keeps_ties : argsort_stable argsort.

Lemma filter_omap_lookup (pr : list (nat * Qc)) (q : Qc) (js : list nat) :
  filter (λ p, p.2 = q) (omap (λ j, pr !! j) js)
  = omap (λ j, pr !! j) (filter (λ j, pr.*2 !! j = Some q) js).
Proof.
  induction js as [|j js IH]; [done|]. csimpl.
  rewrite filter_cons, list_lookup_fmap.
  destruct (pr !! j) as [p|] eqn:Hp; csimpl.
  - rewrite filter_cons, IH.
    destruct (decide (p.2 = q)) as [Heq|Hne];
      destruct (decide (Some p.2 = Some q)) as [Heq'|Hne']; csimpl;
      rewrite ?Hp; congruence.
  - by destruct (decide (None = Some q)).
Qed.

Lemma by_key_filter pr q :
  filter (λ p, p.2 = q) (by_key argsort pr) = filter (λ p, p.2 = q) pr.
Proof.
  unfold by_key. rewrite filter_omap_lookup, argsort_keeps_ties.
  rewrite <-filter_omap_lookup, length_fmap. by rewrite omap_lookup_seq.
Qed.

Lemma rows_at_filter (rs : list Row) (sel : list (nat * Qc)) (q : Qc) :
  Forall (λ ik, (package_of <$> rs) !! ik.1 = Some (Some ik.2)) sel →
  filter (λ r, package_of r = Some q) (omap (λ i, rs !! i) sel.*1)
  = omap (λ i, rs !! i) (filter (λ p, p.2 = q) sel).*1.
Proof.
  induction 1 as [|[i k] sel Hi _ IH]; [done|]. csimpl in *.
  rewrite list_lookup_fmap in Hi. destruct (rs !! i) as [r|] eqn:Hr; [|done].
  injection Hi as Hk. csimpl. rewrite !filter_cons, IH. csimpl.
  destruct (decide (package_of r = Some q)) as [Heq|Hne];
    destruct (decide (k = q)) as [Heq'|Hne']; csimpl; rewrite ?Hr; congruence.
Qed.

Lemma no_package_filter (l : list Row) (q : Qc) :
  Forall (λ r, package_of r = None) l →
  filter (λ r, package_of r = Some q) l = [].
Proof.
  induction 1 as [|r l Hr _ IH]; [done|].
  rewrite filter_cons, IH, decide_False; [done|]. by rewrite Hr.
Qed.

Lemma rows_at_present_keys_from (pre rs : list Row) :
  omap (λ i, (pre ++ rs) !! i)
    (omap present_at
       (zip (seq (length pre) (length (package_of <$> rs))) (package_of <$> rs))).*1
  = filter (λ r, is_Some (package_of r)) rs.
Proof.
  revert pre. induction rs as [|r rs IH]; intros pre; [done|]. csimpl.
  specialize (IH (pre ++ [r])). rewrite <-(assoc_L (++)), length_app in IH.
  simpl in IH. replace (length pre + 1) with (S (length pre)) in IH by lia.
  rewrite filter_cons. unfold present_at at 1. simpl.
  destruct (decide (is_Some (package_of r))) as [[k Hk]|Hnone].
  - rewrite Hk. csimpl. rewrite list_lookup_middle by done. csimpl.
    by rewrite IH.
  - destruct (package_of r) as [k|]; [destruct Hnone; eauto|]. csimpl.
    by rewrite IH.
Qed.

Lemma rows_at_present_keys (rs : list Row) :
  omap (λ i, rs !! i) (present_keys (package_of <$> rs)).*1
  = filter (λ r, is_Some (package_of r)) rs.
Proof. apply (rows_at_present_keys_from []). Qed.

Lemma filter_package_present (rs : list Row) (q : Qc) :
  filter (λ r, package_of r = Some q) (filter (λ r, is_Some (package_of r)) rs)
  = filter (λ r, package_of r = Some q) rs.
Proof.
  induction rs as [|r rs IH]; [done|]. rewrite !filter_cons.
  destruct (decide (package_of r = Some q)) as [Heq|Hne].
  - rewrite decide_True by (rewrite Heq; eauto).
    by rewrite filter_cons, decide_True, IH.
  - case_decide; [|done]. by rewrite filter_cons, decide_False, IH.
Qed.

Lemma take_rows_keeps_ties df ascending :
  keeps_ties (rows df)
    (rows (take_rows df (nargsort argsort ascending (package_of <$> rows df)))).
Proof.
  intros q. set (items := package_of <$> rows df). simpl.
  rewrite <-(filter_package_present (rows df)), <-rows_at_present_keys.
  fold items. rewrite rows_at_filter by apply present_keys_lookup.
  destruct ascending.
  - rewrite nargsort_ascending, omap_app, filter_app.
    rewrite (no_package_filter (omap _ (missing_keys items)))
      by apply rows_at_missing, missing_keys_lookup.
    rewrite app_nil_r, rows_at_filter, by_key_filter; [done|].
    rewrite by_key_Permutation by done. apply present_keys_lookup.
  - rewrite nargsort_descending, omap_app, filter_app.
    rewrite (no_package_filter (omap _ (missing_keys items)))
      by apply rows_at_missing, missing_keys_lookup.
    rewrite app_nil_r, <-fmap_reverse, rows_at_filter.
    + by rewrite filter_reverse, by_key_filter, filter_reverse, reverse_involutive.
    + rewrite Forall_reverse, by_key_Permutation, Forall_reverse by done.
      apply present_keys_lookup.
Qed.

(** With a sorting routine that keeps equal keys in order, the sort of the
    program keeps the rows of equal package in order, in both directions. *)
Lemma sortByPackage_keeps_ties df order sorted :
  sortByPackage argsort df order = Some sorted →
  keeps_ties (rows df) (rows sorted).
Proof.
  destruct order; simpl.
  - by intros [= <-].
  - intros ->%sort_values_Some. apply take_rows_keeps_ties.
  - intros ->%sort_values_Some. apply take_rows_keeps_ties.
Qed.
End stable.

(** *** The claims about sorting *)

Lemma sortByPackage_none argsort df : sortByPackage argsort df SortNone = Some df.
Proof. reflexivity. Qed.

(** C4 as stated fails: the program asks [sort_values] for no stable kind,
    and the routine numpy then sorts with does not keep rows of equal
    package in the order they had once the dataset is long enough to be
    partitioned.  Sorted from the lowest package, the twenty offers of
    [ties_df] come out by package, but those of package 1 (D, H, L, O, P, S
    in the dataset) not in that order. *)
Lemma sortByPackage_not_stable :
  ∃ sorted,
    sortByPackage numpy_argsort ties_df LowestToHighest = Some sorted ∧
    package_of <$> rows sorted =
      (λ lpa, Some (decimal lpa 1)) <$>
        [1; 1; 1; 1; 1; 1; 2; 2; 2; 2; 2; 2; 3; 3; 3; 3; 3; 3; 3; 3]%Z ∧
    ¬ keeps_ties (rows ties_df) (rows sorted).
Proof.
  eexists. split; [by vm_compute|]. split; [by vm_compute|].
  intros H. specialize (H (decimal 1 1)).
  apply (f_equal (fmap (λ r : Row, r !! "Company"))) in H.
  by vm_compute in H.
Qed.

(** C4, amended. Without a direction the dataset is returned as it is.
    With a direction, the result has the columns of the dataset and its rows
    in another order: first the rows that have a package, by non-decreasing
    package for Ascending and by non-increasing package for Descending, then
    the rows without a package.  The order among rows of equal package is
    left open. *)
Theorem sortByPackage_spec (argsort : list Qc → list nat) (df : DataFrame) :
  argsort_ok argsort → has_packages df →
  sortByPackage argsort df SortNone = Some df ∧
  ∀ order, order ≠ SortNone →
    ∃ sorted, sortByPackage argsort df order = Some sorted ∧
      columns sorted = columns df ∧
      rows sorted ≡ₚ rows df ∧
      ∃ priced unpriced ks,
        rows sorted = priced ++ unpriced ∧
        package_of <$> priced = Some <$> ks ∧
        Forall (λ r, package_of r = None) unpriced ∧
        StronglySorted (in_order order) ks.
Proof.
  intros Hargsort Hdf. split; [done|]. intros order Horder.
  by apply sortByPackage_sorted.
Qed.

Lemma sortByPackage_spec_witness :
  sortByPackage stable_argsort unpaid_df SortNone = Some unpaid_df ∧
  ∀ order, order ≠ SortNone →
    ∃ sorted, sortByPackage stable_argsort unpaid_df order = Some sorted ∧
      columns sorted = columns unpaid_df ∧
      rows sorted ≡ₚ rows unpaid_df ∧
      ∃ priced unpriced ks,
        rows sorted = priced ++ unpriced ∧
        package_of <$> priced = Some <$> ks ∧
        Forall (λ r, package_of r = None) unpriced ∧
        StronglySorted (in_order order) ks.
Proof.
  apply (sortByPackage_spec stable_argsort unpaid_df);
    [apply stable_argsort_ok | by_decide].
Defined.

(** C8 as stated fails: rows without a package go last in both directions,
    so the reversed descending order starts with them and the ascending
    order ends with them.  No two rows of this dataset share a package. *)
Lemma reverse_descending_missing_package :
  NoDup (package_of <$> rows unpaid_df) ∧
  sortByPackage stable_argsort unpaid_df HighestToLowest =
    Some (mkDF canonical_columns [new_entry acme; unpaid]) ∧
  sortByPackage stable_argsort unpaid_df LowestToHighest =
    Some (mkDF canonical_columns [new_entry acme; unpaid]) ∧
  reverse [new_entry acme; unpaid] ≠ [new_entry acme; unpaid].
Proof.
  split; [by_decide|]. split; [reflexivity|]. split; [reflexivity|].
  intros H. apply (f_equal (fmap (λ r : Row, r !! "Package(LPA)"))) in H.
  by vm_compute in H.
Qed.

(** C8, amended. For a dataset in which every row has a package and no two
    rows have the same one, both sorts return, and the reverse of the
    descending result is the ascending result. *)
Theorem reverse_descending_is_ascending (argsort : list Qc → list nat)
    (df : DataFrame) :
  argsort_ok argsort → "Package(LPA)" ∈ columns df → distinct_packages df →
  ∃ desc asc,
    sortByPackage argsort df HighestToLowest = Some desc ∧
    sortByPackage argsort df LowestToHighest = Some asc ∧
    reverse (rows desc) = rows asc.
Proof. intros Hargsort Hc Hdf. by apply sortByPackage_reverse. Qed.

Lemma reverse_descending_is_ascending_witness :
  ∃ desc asc,
    sortByPackage stable_argsort sample_df HighestToLowest = Some desc ∧
    sortByPackage stable_argsort sample_df LowestToHighest = Some asc ∧
    reverse (rows desc) = rows asc.
Proof.
  apply (reverse_descending_is_ascending stable_argsort sample_df);
    [apply stable_argsort_ok | by_decide | by_decide].
Defined.

(** Stability is a matter of the sorting routine alone: with one that keeps
    ties, such as the insertion sort with [<=], the program's sort keeps the
    rows of equal package in their order, in both directions. *)
Lemma sortByPackage_stable_argsort df order sorted :
  sortByPackage stable_argsort df order = Some sorted →
  keeps_ties (rows df) (rows sorted).
Proof.
  apply sortByPackage_keeps_ties;
    [apply stable_argsort_ok | apply stable_argsort_stable].
Qed.

Example sortByPackage_stable_kernel :
  sortByPackage stable_argsort tie_df LowestToHighest = Some tie_df ∧
  sortByPackage stable_argsort tie_df HighestToLowest = Some tie_df.
Proof. split; reflexivity. Qed.

(** ** Writing and reading the file *)

Lemma read_field_idemp f : read_field (read_field f) = read_field f.
Proof.
  destruct f as [[s|q]|]; simpl; [|done..].
  destruct (decide (s ∈ STR_NA_VALUES)) eqn:Hs; simpl; [done|]. by rewrite Hs.
Qed.

Lemma read_back_lookup cols (r : Row) k :
  read_back cols r !! k = if decide (k ∈ cols) then read_field (r !! k) else None.
Proof.
  unfold read_back. induction cols as [|c cols IH]; [done|]. csimpl.
  unfold read_cell at 1. simpl.
  destruct (decide (k = c)) as [->|Hk].
  - rewrite decide_True by left.
    destruct (read_field (r !! c)) as [v|] eqn:Hv; simpl.
    + by rewrite lookup_insert_eq.
    + rewrite IH. by case_decide.
  - assert ((if decide (k ∈ c :: cols) then read_field (r !! k) else None)
            = (if decide (k ∈ cols) then read_field (r !! k) else None)) as ->.
    { destruct (decide (k ∈ cols)) as [Hin|Hin].
      - rewrite decide_True; [done|by right].
      - rewrite decide_False; [done|]. by intros [?|?]%elem_of_cons. }
    destruct (read_field (r !! c)) as [v|]; simpl; [|done].
    by rewrite lookup_insert_ne.
Qed.

Lemma read_back_stored_as_is cols (r : Row) :
  stored_as_is cols r → read_back cols r = r.
Proof.
  intros Hr. apply map_eq. intros k. rewrite read_back_lookup.
  destruct (r !! k) as [v|] eqn:Hk.
  - destruct (Hr k v Hk) as [Hin Hv]. by rewrite decide_True.
  - by case_decide.
Qed.

Lemma stored_as_is_read_back cols (r : Row) : stored_as_is cols (read_back cols r).
Proof.
  intros c v. rewrite read_back_lookup. case_decide; [|done].
  intros Hv. split; [done|]. by rewrite <-Hv, read_field_idemp.
Qed.


Lemma read_record_to_csv cols (r : Row) :
  read_record cols (map (λ c, r !! c) cols) = Some (read_back cols r).
Proof. unfold read_record. rewrite decide_True; [done|]. by rewrite length_map. Qed.

(** Reading what was written: every row is read back under the header. *)
Lemma read_csv_to_csv df :
  read_csv (to_csv df) = Some (mkDF (columns df) (read_back (columns df) <$> rows df)).
Proof.
  unfold read_csv, to_csv. simpl.
  assert (mapM (read_record (columns df))
            (map (λ r : Row, map (λ c, r !! c) (columns df)) (rows df))
          = Some (read_back (columns df) <$> rows df)) as ->; [|done].
  apply mapM_Some. induction (rows df) as [|r rs IH]; constructor; [|done].
  apply read_record_to_csv.
Qed.

Lemma load_save df fs :
  load_data (save_data df fs) =
  Some (mkDF (columns df) (read_back (columns df) <$> rows df)).
Proof. unfold load_data, save_data. rewrite lookup_insert_eq. apply read_csv_to_csv. Qed.

Lemma load_save_stored_as_is df fs :
  Forall (stored_as_is (columns df)) (rows df) →
  load_data (save_data df fs) = Some df.
Proof.
  intros Hdf. rewrite load_save. destruct df as [cols rs]. simpl in *. f_equal. f_equal.
  induction Hdf as [|r rs Hr _ IH]; [done|]. csimpl.
  by rewrite read_back_stored_as_is, IH.
Qed.

(** A frame that was read from a file is written and read back as it is. *)
Lemma read_record_stored_as_is hdr fields r :
  read_record hdr fields = Some r → stored_as_is hdr r.
Proof.
  unfold read_record. case_decide; [|done]. intros [= <-] c v Hc.
  apply elem_of_list_to_map_2, list_elem_of_omap in Hc as ([c' f] & Hin & Hcell).
  unfold read_cell in Hcell. simpl in Hcell.
  destruct (read_field f) as [v'|] eqn:Hf; [|done]. injection Hcell as -> ->.
  split.
  - by apply elem_of_zip_l in Hin.
  - rewrite <-Hf. apply read_field_idemp.
Qed.

Lemma load_data_stored_as_is fs df :
  load_data fs = Some df → Forall (stored_as_is (columns df)) (rows df).
Proof.
  unfold load_data, read_csv. intros H. simplify_option_eq.
  match goal with H : mapM _ _ = Some _ |- _ => apply mapM_Some in H; rename H into Hrs end.
  induction Hrs as [|fields r ?? Hr _ IH]; constructor; [|done].
  by eapply read_record_stored_as_is.
Qed.

(** *** Datasets that are read back as written *)



(** ** Add Company, then load *)









(** On a freshly created store the first record is kept too, next to the
    fused column of [init_csv]: the file then has eight columns. *)
Example add_to_fresh_store :
  ∃ fs' out,
    main no_regex stable_argsort ∅ (AddCompany acme true) = Some (fs', out) ∧
    load_data fs' =
      Some (mkDF [ "Company"; "Role"; "Package(LPA)"; "Eligibility_CGPA";
                   "Backlogs_AllowedEligibility_10th"; "Eligibility_12th";
                   "Backlogs_Allowed"; "Eligibility_10th" ]
                 [new_entry acme]).
Proof. eexists _, _. split; [reflexivity|]. by vm_compute. Qed.

(** ** Remove Company *)

Section lists.
Context {A B C : Type}.

Lemma zip_map (f : A → B) (g : A → C) (l : list A) :
  zip (map f l) (map g l) = map (λ x, (f x, g x)) l.
Proof. induction l as [|x l IH]; [done|]. simpl. by rewrite IH. Qed.

Lemma zip_with_map_r (f : A → B → C) (g : A → B) (l : list A) :
  zip_with f l (map g l) = map (λ x, f x (g x)) l.
Proof. induction l as [|x l IH]; [done|]. simpl. by rewrite IH. Qed.

Lemma select_map_map (f : A → bool) (h : A → B) (l : list A) :
  select (map f l) (map h l) = map h (filter f l).
Proof.
  induction l as [|x l IH]; [done|]. simpl.
  rewrite filter_cons, IH. by destruct (f x).
Qed.
End lists.

Lemma set_cell_lookup c (r : Row) v : set_cell c r v !! c = v.
Proof.
  destruct v as [v|]; simpl; [apply lookup_insert_eq | apply lookup_delete_eq].
Qed.

Lemma delete_set_cell c (r : Row) v : r !! c = None → delete c (set_cell c r v) = r.
Proof.
  intros Hr. destruct v as [v|]; simpl.
  - by rewrite delete_insert_id.
  - rewrite delete_delete_eq. by apply delete_id.
Qed.

Lemma filter_columns_snoc (cols : list string) c :
  c ∉ cols → filter (λ c', c' ≠ c) (cols ++ [c]) = cols.
Proof.
  intros Hc. rewrite filter_app, filter_cons.
  destruct (decide (c ≠ c)) as [?|_]; [done|].
  rewrite filter_nil, app_nil_r. induction cols as [|c' cols IH]; [done|].
  apply not_elem_of_cons in Hc as [Hne Hc].
  rewrite filter_cons, decide_True by done. by rewrite IH.
Qed.

(** The labels the program computes are [label], row by row. *)
Lemma company_role_labels df :
  names_are_text df → company_role df = Some (map label (rows df)).
Proof.
  intros ([Hc Hobj] & Hr & Hnum). unfold company_role, getitem.
  rewrite !decide_True by done. simpl. unfold str_add_scalar. rewrite Hobj.
  destruct (mapM_column_is_Some (λ r : Row, r !! "Company") (cell_add_str " - ")
              (rows df)) as [cs Hcs].
  { intros r Hin. rewrite Forall_forall in Hnum. destruct (Hnum r Hin) as [H1 _].
    by destruct (r !! "Company") as [[s|q]|]; simpl; eauto. }
  rewrite Hcs. simpl. apply (mapM_column _ _ None) in Hcs as ->.
  unfold str_add_series. rewrite zip_map. apply mapM_Some.
  clear Hobj. revert Hnum. generalize (rows df). intros rs Hnum.
  induction Hnum as [|r rs [H1 H2] _ IH]; simpl; constructor; [|done].
  unfold label.
  destruct (r !! "Company") as [[a|q]|]; [|done|]; simpl;
    by destruct (r !! "Role") as [[b|q]|].
Qed.

(** What is left of the frame once the label column has been added, the
    rows bearing the selected label dropped, and the label column dropped
    again. *)
Lemma remove_frame df (selected : string) :
  "Company_Role" ∉ columns df →
  Forall (stored_as_is (columns df)) (rows df) →
  let labelled := setitem df "Company_Role" (map label (rows df)) in
  getitem labelled "Company_Role" = Some (map label (rows df)) ∧
  drop_column
    (boolean_index labelled (series_ne (map label (rows df)) selected))
    "Company_Role"
  = Some (mkDF (columns df)
            (filter (λ r, label r ≠ Some (VStr selected)) (rows df))).
Proof.
  intros Hcol Hdf labelled.
  assert (columns labelled = columns df ++ ["Company_Role"]) as Hcols.
  { unfold labelled, setitem. simpl. by rewrite decide_False. }
  assert (rows labelled =
          map (λ r, set_cell "Company_Role" r (label r)) (rows df)) as Hrows.
  { unfold labelled, setitem. simpl. apply zip_with_map_r. }
  assert ("Company_Role" ∈ columns labelled) as Hin.
  { rewrite Hcols. apply elem_of_app. right. by left. }
  split.
  - unfold getitem. rewrite decide_True by done. f_equal.
    rewrite Hrows, map_map. apply map_ext. intros r. apply set_cell_lookup.
  - unfold drop_column, boolean_index. cbn [columns rows].
    rewrite decide_True by done. f_equal. rewrite Hcols, Hrows.
    rewrite filter_columns_snoc by done. f_equal.
    unfold series_ne. rewrite map_map, select_map_map, map_map.
    rewrite (list_filter_iff _ (λ r, label r ≠ Some (VStr selected)));
      [|intros r; unfold cell_ne; by rewrite bool_decide_spec].
    rewrite <-(map_id (filter _ (rows df))) at 2. apply map_ext_in.
    intros r Hr%list_elem_of_In%list_elem_of_filter.
    destruct Hr as [_ Hr]. rewrite Forall_forall in Hdf.
    apply delete_set_cell. destruct (r !! "Company_Role") as [v|] eqn:Hv; [|done].
    by destruct (Hdf r Hr _ _ Hv).
Qed.

(** The frame that Remove saves. *)
Lemma remove_company_saves fs df (selected : string) :
  empty df = false → names_are_text df →
  "Company_Role" ∉ columns df →
  Forall (stored_as_is (columns df)) (rows df) →
  remove_company fs df (Some selected) true =
  Some (save_data
          (mkDF (columns df)
             (filter (λ r, label r ≠ Some (VStr selected)) (rows df))) fs,
        [ st_success (selected +:+ " removed successfully!"); st_rerun ]).
Proof.
  intros Hempty Hnames Hcol Hdf. unfold remove_company. rewrite Hempty.
  rewrite company_role_labels by done. cbn [mbind option_bind].
  destruct (remove_frame df selected Hcol Hdf) as [-> Hdrop].
  cbn [mbind option_bind label_ne]. by rewrite Hdrop.
Qed.



(** The two scenarios of the specification: with one row of that label the
    row goes, with two rows of that label both go. *)
Example remove_single_label :
  ∃ fs' out,
    main no_regex stable_argsort {[ CSV_FILE := to_csv sample_df ]}
      (RemoveCompany (Some "Acme - Engineer") true) = Some (fs', out) ∧
    load_data fs' = Some (mkDF canonical_columns [new_entry globex]).
Proof. eexists _, _. split; [reflexivity|]. by vm_compute. Qed.

Example remove_double_label :
  ∃ fs' out,
    main no_regex stable_argsort twice_fs
      (RemoveCompany (Some "Acme - Engineer") true) = Some (fs', out) ∧
    load_data fs' = Some (mkDF canonical_columns [new_entry globex]).
Proof. eexists _, _. split; [reflexivity|]. by vm_compute. Qed.

(** ** Empty dataset *)

(** On an empty dataset the view, the chart and the removal report that
    there is nothing to show, and change nothing. *)
Lemma view_companies_empty re_compile argsort df t order :
  empty df = true →
  view_companies re_compile argsort df t order =
  Some [st_warning "No companies added yet."].
Proof. intros H. unfold view_companies. by rewrite H. Qed.

Lemma visualize_packages_empty argsort df :
  empty df = true →
  visualize_packages argsort df = Some [st_warning "No companies to visualize yet."].
Proof. intros H. unfold visualize_packages. by rewrite H. Qed.

Lemma remove_company_empty fs df selected clicked :
  empty df = true →
  remove_company fs df selected clicked =
  Some (fs, [st_warning "No companies to remove."]).
Proof. intros H. unfold remove_company. by rewrite H. Qed.

Example view_fresh_store :
  main no_regex stable_argsort ∅ (ViewCompanies "" SortNone) =
  Some (init_csv ∅, [st_warning "No companies added yet."]).
Proof. reflexivity. Qed.

(** * Further properties of the program *)

(** ** The store across runs *)

(** X1. [init_csv] keeps every file that exists, with its content, touches
    no file other than [placements.csv], leaves [placements.csv] in place
    afterwards, and run twice does what it does once. *)
Theorem init_csv_preserves (fs : FS) :
  (∀ f csv, fs !! f = Some csv → init_csv fs !! f = Some csv) ∧
  (∀ f, f ≠ CSV_FILE → init_csv fs !! f = fs !! f) ∧
  is_Some (init_csv fs !! CSV_FILE) ∧
  init_csv (init_csv fs) = init_csv fs.
Proof.
  split; [|split; [|split]].
  - intros f csv Hf. unfold init_csv. case_decide as Hex; [done|].
    rewrite lookup_insert_ne; [done|]. intros <-. destruct Hex. eauto.
  - intros f Hf. unfold init_csv. case_decide; [done|].
    by rewrite lookup_insert_ne.
  - apply init_csv_is_Some.
  - apply init_csv_idempotent.
Qed.

Lemma init_csv_preserves_witness :
  init_csv acme_fs !! CSV_FILE =
    Some (to_csv (mkDF canonical_columns [new_entry acme])) ∧
  init_csv export_only_fs !! EXPORT_FILE = export_only_fs !! EXPORT_FILE.
Proof.
  split.
  - destruct (init_csv_preserves acme_fs) as (Hkeep & _). apply Hkeep. reflexivity.
  - destruct (init_csv_preserves export_only_fs) as (_ & Hother & _).
    apply Hother. by_decide.
Defined.

Lemma load_fresh (fs : FS) :
  fs !! CSV_FILE = None → load_data (init_csv fs) = Some (mkDF init_columns []).
Proof.
  intros Hfs. rewrite init_csv_creates by done.
  unfold load_data. by rewrite lookup_insert_eq.
Qed.

(** X2. On a store without [placements.csv] the eligibility check raises:
    the file that [init_csv] has just created lacks the Backlogs_Allowed
    column that the check reads. *)
Theorem check_on_fresh_store_raises
    (re_compile : string → option (string → bool))
    (argsort : list Qc → list nat) (fs : FS) (p : profile) :
  fs !! CSV_FILE = None →
  main re_compile argsort fs (CheckEligibility p true) = None.
Proof. intros Hfs. unfold main. by rewrite load_fresh. Qed.

Lemma check_on_fresh_store_raises_witness :
  main no_regex stable_argsort export_only_fs (CheckEligibility strong_profile true)
  = None.
Proof.
  apply (check_on_fresh_store_raises no_regex stable_argsort export_only_fs
           strong_profile). reflexivity.
Defined.



(** ** More on the eligibility check *)

Section filters.
Context {A : Type}.

Lemma filter_sublist_impl (P Q : A → Prop) `{!∀ x, Decision (P x)}
    `{!∀ x, Decision (Q x)} (l : list A) :
  (∀ x, P x → Q x) → filter P l `sublist_of` filter Q l.
Proof.
  intros HPQ. induction l as [|x l IH]; [done|]. rewrite !filter_cons.
  destruct (decide (P x)) as [HP|HP].
  - rewrite decide_True by auto. by constructor.
  - destruct (decide (Q x)); [by constructor|done].
Qed.

Lemma filter_idemp (P : A → Prop) `{!∀ x, Decision (P x)} (l : list A) :
  filter P (filter P l) = filter P l.
Proof.
  induction l as [|x l IH]; [done|]. rewrite filter_cons.
  destruct (decide (P x)) as [HP|HP]; [|done].
  by rewrite filter_cons, decide_True, IH.
Qed.
End filters.

Lemma series_le_numeric df c x :
  is_Some (getitem df c ≫= series_le x) → numeric_column df c.
Proof.
  unfold getitem. case_decide as Hc; [|by intros [? ?]]. simpl.
  intros H%mapM_is_Some. split; [done|].
  apply Forall_forall. intros r Hr. rewrite Forall_forall in H.
  specialize (H (r !! c)). simpl in H.
  destruct (r !! c) as [[s|q]|] eqn:Hrc; [|done..].
  destruct H as [? [=]]. rewrite <-Hrc. by apply list_elem_of_fmap_2.
Qed.

Lemma series_ge_numeric df c x :
  is_Some (getitem df c ≫= series_ge x) → numeric_column df c.
Proof.
  unfold getitem. case_decide as Hc; [|by intros [? ?]]. simpl.
  intros H%mapM_is_Some. split; [done|].
  apply Forall_forall. intros r Hr. rewrite Forall_forall in H.
  specialize (H (r !! c)). simpl in H.
  destruct (r !! c) as [[s|q]|] eqn:Hrc; [|done..].
  destruct H as [? [=]]. rewrite <-Hrc. by apply list_elem_of_fmap_2.
Qed.

Lemma filterEligible_has_thresholds df p :
  is_Some (filterEligible df p) → has_thresholds df.
Proof.
  unfold filterEligible. intros [eligible H].
  apply bind_Some in H as (m1 & H1 & H). apply bind_Some in H as (m2 & H2 & H).
  apply bind_Some in H as (m3 & H3 & H). apply bind_Some in H as (m4 & H4 & _).
  unfold has_thresholds, threshold_columns.
  apply Forall_cons_2; [eapply series_le_numeric; eexists; exact H1|].
  apply Forall_cons_2; [eapply series_ge_numeric; eexists; exact H2|].
  apply Forall_cons_2; [eapply series_le_numeric; eexists; exact H3|].
  apply Forall_cons_2; [eapply series_le_numeric; eexists; exact H4|].
  constructor.
Qed.

(** X4. The eligibility filter returns a frame exactly when the four
    threshold columns exist and hold no text; otherwise it raises (a missing
    column is a [KeyError], a text cell against a number a [TypeError]),
    whatever the profile. *)
Theorem filterEligible_returns_iff (df : DataFrame) (p : profile) :
  is_Some (filterEligible df p) ↔ has_thresholds df.
Proof. split; [apply filterEligible_has_thresholds | apply filterEligible_total]. Qed.

Lemma eligible_row_mono p p' r :
  at_least_as_good p p' → eligible_row p r = true → eligible_row p' r = true.
Proof.
  intros (Hc & Hb & H10 & H12). rewrite !eligible_row_meets.
  intros ((q1 & ? & ?) & (q2 & ? & ?) & (q3 & ? & ?) & (q4 & ? & ?)).
  repeat split; eexists; (split; [done|]).
  - by apply Qcle_trans with (user_cgpa p).
  - apply Qcle_trans with (Qc_of_Z (user_backlogs p)); [|done].
    exact (proj1 (Z2Qc_inj_le _ _) Hb).
  - by apply Qcle_trans with (user_10th p).
  - by apply Qcle_trans with (user_12th p).
Qed.

(** X5. A better profile never loses an offer: when [p'] has no lower CGPA
    and percentages and no more backlogs than [p], the rows found for [p]
    are a subsequence of the rows found for [p']. *)
Theorem filterEligible_monotone (df : DataFrame) (p p' : profile) :
  has_thresholds df → at_least_as_good p p' →
  ∃ eligible eligible',
    filterEligible df p = Some eligible ∧
    filterEligible df p' = Some eligible' ∧
    rows eligible `sublist_of` rows eligible'.
Proof.
  intros Hdf Hp.
  destruct (filterEligible_total df p Hdf) as [e He].
  destruct (filterEligible_total df p' Hdf) as [e' He'].
  exists e, e'. split; [done|]. split; [done|].
  apply filterEligible_Some in He as ->. apply filterEligible_Some in He' as ->.
  simpl. apply filter_sublist_impl. intros r. rewrite !Is_true_true.
  by apply eligible_row_mono.
Qed.

Lemma filterEligible_monotone_witness :
  ∃ eligible eligible',
    filterEligible sample_df weak_profile = Some eligible ∧
    filterEligible sample_df strong_profile = Some eligible' ∧
    rows eligible `sublist_of` rows eligible'.
Proof.
  apply (filterEligible_monotone sample_df weak_profile strong_profile); by_decide.
Defined.

(** X6. Filtering the result of the eligibility filter again, with the same
    profile, raises nothing and changes nothing. *)
Theorem filterEligible_idempotent (df eligible : DataFrame) (p : profile) :
  filterEligible df p = Some eligible → filterEligible eligible p = Some eligible.
Proof.
  intros He. assert (has_thresholds df) as Hdf.
  { apply (filterEligible_has_thresholds df p). by rewrite He. }
  apply filterEligible_Some in He as ->.
  set (e := mkDF (columns df) (filter (eligible_row p) (rows df))).
  destruct (filterEligible_total e p) as [e' He'].
  { unfold has_thresholds in *. eapply Forall_impl; [done|].
    intros c [Hc Hnum]. split; [done|]. simpl.
    rewrite Forall_forall in Hnum. apply Forall_forall.
    intros r [_ Hr]%list_elem_of_filter. by apply Hnum. }
  rewrite He'. apply filterEligible_Some in He' as ->. unfold e. simpl.
  by rewrite filter_idemp.
Qed.

Lemma filterEligible_idempotent_witness :
  filterEligible (mkDF canonical_columns [new_entry globex]) weak_profile
  = Some (mkDF canonical_columns [new_entry globex]).
Proof.
  apply (filterEligible_idempotent sample_df _ weak_profile). reflexivity.
Defined.

(** X7. The thresholds are inclusive: a candidate whose CGPA, backlogs and
    percentages are exactly those a row asks for is eligible for that row. *)
Theorem filterEligible_on_thresholds (df : DataFrame) (p : profile) (r : Row) :
  has_thresholds df → r ∈ rows df → on_thresholds r p →
  ∃ eligible, filterEligible df p = Some eligible ∧ r ∈ rows eligible.
Proof.
  intros Hdf Hr (H1 & H2 & H3 & H4).
  destruct (filterEligible_rows df p Hdf) as (eligible & He & Hin).
  exists eligible. split; [done|]. apply Hin. split; [done|].
  repeat split; eexists; (split; [done|]); done.
Qed.

Lemma filterEligible_on_thresholds_witness :
  ∃ eligible,
    filterEligible sample_df (mkProfile (decimal 75 10) 1 (decimal 60 1) (decimal 60 1))
      = Some eligible ∧
    new_entry acme ∈ rows eligible.
Proof.
  apply (filterEligible_on_thresholds sample_df
           (mkProfile (decimal 75 10) 1 (decimal 60 1) (decimal 60 1))
           (new_entry acme)); by_decide.
Defined.

(** ** What a run does to the store *)

Lemma check_eligibility_store fs df p clicked fs' out :
  check_eligibility fs df p clicked = Some (fs', out) →
  fs' = fs ∨ ∃ eligible,
    filterEligible df p = Some eligible ∧ empty eligible = false ∧
    clicked = true ∧ fs' = <[EXPORT_FILE := to_csv eligible]> fs.
Proof.
  unfold check_eligibility. destruct clicked; [|intros [= <- _]; by left].
  intros (eligible & He & H)%bind_Some.
  destruct (empty eligible) eqn:Hempty; [injection H as <- _; by left|].
  apply bind_Some in H as (shown & _ & [= <- _]). right. eauto.
Qed.

Lemma remove_company_store fs df selected clicked fs' out :
  remove_company fs df selected clicked = Some (fs', out) →
  fs' = fs ∨ ∃ df', clicked = true ∧ fs' = save_data df' fs.
Proof.
  unfold remove_company. destruct (empty df); [intros [= <- _]; by left|].
  intros (labels & _ & H)%bind_Some. destruct clicked; [|injection H as <- _; by left].
  apply bind_Some in H as (labels' & _ & H).
  apply bind_Some in H as (df' & _ & [= <- _]). right. eauto.
Qed.

(** X8. A run never deletes a file and always leaves [placements.csv] in
    place; viewing, charting, and a form that was not submitted or a button
    that was not clicked write nothing at all: the store is then exactly
    what [init_csv] left. *)
Theorem main_store (re_compile : string → option (string → bool))
    (argsort : list Qc → list nat) (fs fs' : FS) (choice : action)
    (out : list output) :
  main re_compile argsort fs choice = Some (fs', out) →
  (∀ f, is_Some (fs !! f) → is_Some (fs' !! f)) ∧
  is_Some (fs' !! CSV_FILE) ∧
  (may_write choice = false → fs' = init_csv fs).
Proof.
  unfold main. intros (df & _ & H)%bind_Some.
  assert (∀ f, is_Some (fs !! f) → is_Some (init_csv fs !! f)) as Hinit.
  { intros f [csv Hf]. unfold init_csv. case_decide; [by rewrite Hf|].
    destruct (decide (f = CSV_FILE)) as [->|Hne];
      [rewrite lookup_insert_eq | rewrite lookup_insert_ne, Hf by done]; eauto. }
  assert (∀ (fs1 : FS) f (csv : Csv) g,
            is_Some (fs1 !! g) → is_Some (<[f := csv]> fs1 !! g)) as Hins.
  { intros fs1 f csv g Hg. destruct (decide (f = g)) as [->|Hne];
      [rewrite lookup_insert_eq | rewrite lookup_insert_ne by done]; eauto. }
  pose proof (init_csv_is_Some fs) as Hcsv.
  destruct choice as [t order|e submitted|p clicked| |selected clicked]; simpl in *.
  - apply bind_Some in H as (shown & _ & [= <- _]). auto.
  - unfold add_company in H. destruct submitted; injection H as <- _; [|by auto].
    unfold save_data. split; [by auto|]. split; [|done].
    rewrite lookup_insert_eq. eauto.
  - apply check_eligibility_store in H
      as [->|(eligible & _ & _ & -> & ->)]; [by auto|].
    split; [by auto|]. split; [by auto|done].
  - apply bind_Some in H as (shown & _ & [= <- _]). auto.
  - apply remove_company_store in H as [->|(df' & -> & ->)]; [by auto|].
    unfold save_data. split; [by auto|]. split; [|done].
    rewrite lookup_insert_eq. eauto.
Qed.

Lemma main_store_witness :
  is_Some (init_csv export_only_fs !! EXPORT_FILE) ∧
  is_Some (init_csv export_only_fs !! CSV_FILE) ∧
  init_csv export_only_fs = init_csv export_only_fs.
Proof.
  destruct (main_store no_regex stable_argsort export_only_fs
              (init_csv export_only_fs) (ViewCompanies "" SortNone)
              [st_warning "No companies added yet."]) as (Hkeep & Hcsv & Hro);
    [reflexivity|].
  split; [apply Hkeep; by_decide|]. split; [done|]. by apply Hro.
Defined.

(** X9. The eligibility check never changes the dataset: whatever it finds,
    [placements.csv] and every file other than the export are as [init_csv]
    left them. *)
Theorem check_keeps_dataset (re_compile : string → option (string → bool))
    (argsort : list Qc → list nat) (fs fs' : FS) (p : profile) (clicked : bool)
    (out : list output) :
  main re_compile argsort fs (CheckEligibility p clicked) = Some (fs', out) →
  load_data fs' = load_data (init_csv fs) ∧
  ∀ f, f ≠ EXPORT_FILE → fs' !! f = init_csv fs !! f.
Proof.
  unfold main. intros (df & _ & H)%bind_Some.
  apply check_eligibility_store in H as [->|(eligible & _ & _ & _ & ->)]; [done|].
  unfold load_data. rewrite lookup_insert_ne by done. split; [done|].
  intros f Hf. by rewrite lookup_insert_ne.
Qed.

Lemma check_keeps_dataset_witness :
  load_data (<[EXPORT_FILE := to_csv (mkDF canonical_columns [new_entry acme])]> acme_fs)
  = load_data (init_csv acme_fs) ∧
  ∀ f, f ≠ EXPORT_FILE →
    <[EXPORT_FILE := to_csv (mkDF canonical_columns [new_entry acme])]> acme_fs !! f
    = init_csv acme_fs !! f.
Proof.
  apply (check_keeps_dataset no_regex stable_argsort acme_fs _ strong_profile true
           [ st_success "You are eligible for the following companies:";
             st_dataframe (mkDF shown_columns
               [filter (λ kv, kv.1 ∈ shown_columns) (new_entry acme)]);
             st_download_button "Download Eligible Companies"
               (to_csv (mkDF canonical_columns [new_entry acme])) EXPORT_FILE ]).
  reflexivity.
Defined.

(** ** Round trips through the files *)


(** X10. A dataset that was loaded from [placements.csv] is saved and loaded
    again as it is: saving what was read changes nothing for the next run. *)
Theorem save_loaded_dataset (fs fs0 : FS) (df : DataFrame) :
  load_data fs = Some df → load_data (save_data df fs0) = Some df.
Proof. intros Hload. by apply load_save_stored_as_is, (load_data_stored_as_is fs). Qed.

Lemma save_loaded_dataset_witness :
  load_data (save_data (mkDF canonical_columns [new_entry acme]) export_only_fs)
  = Some (mkDF canonical_columns [new_entry acme]).
Proof. apply (save_loaded_dataset acme_fs). by vm_compute. Defined.





(** ** More on the search *)

Lemma append_assoc (a b c : string) : (a +:+ b) +:+ c = a +:+ (b +:+ c).
Proof.
  induction a as [|x a IH]; [done|].
  change (String x ((a +:+ b) +:+ c) = String x (a +:+ (b +:+ c))).
  by rewrite IH.
Qed.

Lemma lower_nil_inv (t : string) : lower t = "" → t = "".
Proof. by destruct t. Qed.

Lemma str_contains_is_Some re_compile t (s : Series) :
  is_Some (str_contains re_compile t s) ↔
  is_object s = true ∧ is_Some (compile_ignorecase re_compile t).
Proof.
  unfold str_contains. destruct (is_object s).
  - destruct (compile_ignorecase re_compile t) as [f|]; simpl.
    + split; eauto.
    + split; [by intros [? ?]|]. by intros [_ [? ?]].
  - split; [by intros [? ?]|]. by intros [? _].
Qed.

(** X13. With a term that is not empty the search returns a frame exactly
    when Role and Company are text columns and the term compiles; otherwise
    it raises: no such column, a column without any text (the [.str]
    accessor refuses it), or a malformed pattern. *)
Theorem search_returns_iff (re_compile : string → option (string → bool))
    (df : DataFrame) (t : string) :
  t ≠ "" →
  (is_Some (search re_compile df t) ↔
   text_column df "Role" ∧ text_column df "Company" ∧
   is_Some (compile_ignorecase re_compile t)).
Proof.
  intros Ht. split; [|intros (? & ? & ?); by apply search_total].
  unfold search. rewrite decide_False by done. intros [found H].
  apply bind_Some in H as (m1 & H1 & H). apply bind_Some in H as (m2 & H2 & _).
  apply bind_Some in H1 as (s1 & Hs1 & H1). apply bind_Some in H2 as (s2 & Hs2 & H2).
  unfold getitem in Hs1, Hs2. repeat case_decide; try done.
  injection Hs1 as <-. injection Hs2 as <-.
  destruct (proj1 (str_contains_is_Some re_compile t _) (mk_is_Some _ _ H1))
    as [Ho1 Hc].
  destruct (proj1 (str_contains_is_Some re_compile t _) (mk_is_Some _ _ H2))
    as [Ho2 _].
  by repeat split.
Qed.

Lemma search_returns_iff_witness :
  is_Some (search no_regex roleless_df "eng") ↔
  text_column roleless_df "Role" ∧ text_column roleless_df "Company" ∧
  is_Some (compile_ignorecase no_regex "eng").
Proof. apply (search_returns_iff no_regex roleless_df "eng"). done. Defined.

(** The search on a dataset in which no row has a role raises. *)
Example search_without_roles : search no_regex roleless_df "eng" = None.
Proof. reflexivity. Qed.

(** X14. The case of the term does not matter: two terms without
    metacharacters that differ only in the case of their letters find the
    same rows. *)
Theorem search_ignores_case (re_compile : string → option (string → bool))
    (df : DataFrame) (t t' : string) :
  is_literal t = true → is_literal t' = true → lower t = lower t' →
  search re_compile df t = search re_compile df t'.
Proof.
  intros Hl Hl' Hlower. unfold search.
  assert (compile_ignorecase re_compile t = compile_ignorecase re_compile t') as Hc.
  { unfold compile_ignorecase. by rewrite Hl, Hl', Hlower. }
  destruct (decide (t = "")) as [->|Ht].
  - symmetry in Hlower. apply lower_nil_inv in Hlower as ->. done.
  - destruct (decide (t' = "")) as [->|Ht'].
    { by apply lower_nil_inv in Hlower. }
    unfold str_contains. by rewrite Hc.
Qed.

Lemma search_ignores_case_witness :
  search no_regex sample_df "ENG" = search no_regex sample_df "eng".
Proof. apply (search_ignores_case no_regex sample_df "ENG" "eng"); reflexivity. Defined.

Lemma contains_ci_trans t t' s :
  contains_ci t t' → contains_ci t' s → contains_ci t s.
Proof.
  intros (a & b & Ht) (pre & post & Hs). unfold contains_ci.
  exists (pre +:+ a), (b +:+ post). rewrite Hs, Ht.
  by rewrite !append_assoc.
Qed.

(** X15. A longer term narrows the search: when [t] occurs in [t'], case
    ignored, the rows found for [t'] are a subsequence of the rows found
    for [t]. *)
Theorem search_narrows (re_compile : string → option (string → bool))
    (df : DataFrame) (t t' : string) :
  t ≠ "" → is_literal t = true → is_literal t' = true → contains_ci t t' →
  text_column df "Role" → text_column df "Company" →
  ∃ found found',
    search re_compile df t = Some found ∧
    search re_compile df t' = Some found' ∧
    rows found' `sublist_of` rows found.
Proof.
  intros Ht Hl Hl' Hsub Hro Hco.
  assert (t' ≠ "") as Ht'.
  { intros ->. destruct Hsub as (a & b & Hab). destruct a; [|done].
    simpl in Hab. symmetry in Hab. destruct (lower t) eqn:Hlt; [|done].
    by apply lower_nil_inv in Hlt. }
  rewrite (search_compiled re_compile df t _ Ht Hro Hco (compile_literal _ _ Hl)).
  rewrite (search_compiled re_compile df t' _ Ht' Hro Hco (compile_literal _ _ Hl')).
  eexists _, _. split; [done|]. split; [done|]. simpl.
  apply filter_sublist_impl. intros r. rewrite !Is_true_true. unfold search_row.
  rewrite !orb_true_iff, !cell_contains_literal.
  intros [(s & Hs & Hc)|(s & Hs & Hc)]; [left|right];
    exists s; (split; [done|]); by apply (contains_ci_trans t t').
Qed.

Lemma search_narrows_witness :
  ∃ found found',
    search no_regex sample_df "eng" = Some found ∧
    search no_regex sample_df "Engineer" = Some found' ∧
    rows found' `sublist_of` rows found.
Proof.
  apply (search_narrows no_regex sample_df "eng" "Engineer");
    [done | reflexivity | reflexivity | | by_decide | by_decide].
  by exists "", "ineer".
Defined.

(** ** The view and the chart *)

(** X16. Sorting the view loses and adds no row: on a dataset that is not
    empty, what View Companies displays has the columns of the dataset and
    the rows that the search found, in some order, and without a direction
    exactly the frame that the search found. *)
Theorem view_companies_shows (re_compile : string → option (string → bool))
    (argsort : list Qc → list nat) (df : DataFrame) (t : string)
    (order : sort_order) (out : list output) :
  argsort_ok argsort → empty df = false →
  view_companies re_compile argsort df t order = Some out →
  ∃ found shown,
    search re_compile df t = Some found ∧
    out = [st_dataframe shown] ∧
    columns shown = columns df ∧
    rows shown ≡ₚ rows found ∧
    (order = SortNone → shown = found).
Proof.
  intros Hargsort Hempty. unfold view_companies. rewrite Hempty.
  intros (found & Hfound & H)%bind_Some.
  apply bind_Some in H as (shown & Hshown & [= <-]).
  exists found, shown. split; [done|]. split; [done|].
  assert (columns found = columns df) as Hcols.
  { destruct (decide (t = "")) as [->|Ht].
    - unfold search in Hfound. simpl in Hfound. by injection Hfound as <-.
    - by destruct (search_Some _ _ _ _ Ht Hfound) as (f & _ & ->). }
  destruct order; simpl in Hshown.
  - injection Hshown as <-. done.
  - apply sort_values_Some in Hshown as ->.
    split; [done|]. split; [by apply take_rows_Permutation|done].
  - apply sort_values_Some in Hshown as ->.
    split; [done|]. split; [by apply take_rows_Permutation|done].
Qed.

Lemma view_companies_shows_witness :
  ∃ found shown,
    search no_regex sample_df "a" = Some found ∧
    [st_dataframe sample_df_swapped] = [st_dataframe shown] ∧
    columns shown = columns sample_df ∧
    rows shown ≡ₚ rows found ∧
    (LowestToHighest = SortNone → shown = found).
Proof.
  apply (view_companies_shows no_regex stable_argsort sample_df "a" LowestToHighest);
    [apply stable_argsort_ok | reflexivity | reflexivity].
Defined.

(** X17. On a dataset that is not empty and whose packages are numbers, the
    chart is drawn from all the rows of the dataset, those with a package
    first, from the highest package to the lowest, then those without. *)
Theorem visualize_packages_chart (argsort : list Qc → list nat) (df : DataFrame) :
  argsort_ok argsort → has_packages df → empty df = false →
  ∃ df_sorted,
    visualize_packages argsort df = Some [st_plotly_chart df_sorted] ∧
    columns df_sorted = columns df ∧
    rows df_sorted ≡ₚ rows df ∧
    ∃ priced unpriced ks,
      rows df_sorted = priced ++ unpriced ∧
      package_of <$> priced = Some <$> ks ∧
      Forall (λ r, package_of r = None) unpriced ∧
      StronglySorted (flip Qcle) ks.
Proof.
  intros Hargsort Hdf Hempty. unfold visualize_packages. rewrite Hempty.
  destruct (sortByPackage_sorted argsort Hargsort df HighestToLowest Hdf)
    as (sorted & Hsorted & Hrest); [done|].
  simpl in Hsorted. rewrite Hsorted. simpl. eauto.
Qed.

Lemma visualize_packages_chart_witness :
  ∃ df_sorted,
    visualize_packages stable_argsort unpaid_df = Some [st_plotly_chart df_sorted] ∧
    columns df_sorted = columns unpaid_df ∧
    rows df_sorted ≡ₚ rows unpaid_df ∧
    ∃ priced unpriced ks,
      rows df_sorted = priced ++ unpriced ∧
      package_of <$> priced = Some <$> ks ∧
      Forall (λ r, package_of r = None) unpriced ∧
      StronglySorted (flip Qcle) ks.
Proof.
  apply (visualize_packages_chart stable_argsort unpaid_df);
    [apply stable_argsort_ok | by_decide | reflexivity].
Defined.








(** ** The sorted order does not depend on the stored order *)

Lemma NoDup_fmap_inj_on {A B} (f : A → B) (l : list A) x y :
  NoDup (f <$> l) → x ∈ l → y ∈ l → f x = f y → x = y.
Proof.
  induction l as [|z l IH]; csimpl; [by intros _ ?%elem_of_nil|].
  intros [Hz Hl]%NoDup_cons [->|Hx]%elem_of_cons [->|Hy]%elem_of_cons Hxy;
    [done|..|by apply IH].
  - destruct Hz. rewrite Hxy. by apply list_elem_of_fmap_2.
  - destruct Hz. rewrite <-Hxy. by apply list_elem_of_fmap_2.
Qed.

Lemma package_rel_sorted (rel : relation Qc) (l : list Row) (ks : list Qc) :
  package_of <$> l = Some <$> ks → StronglySorted rel ks →
  StronglySorted (package_rel rel) l.
Proof.
  revert ks. induction l as [|r l IH]; intros [|k ks]; csimpl; try done.
  { constructor. }
  intros [= Hr Hl] [Hk Hks]%StronglySorted_cons. constructor; [by eapply IH|].
  apply Forall_forall. intros r' Hr'.
  apply (list_elem_of_fmap_2 package_of) in Hr'. rewrite Hl in Hr'.
  apply list_elem_of_fmap in Hr' as (k' & Hk' & Hin).
  rewrite Forall_forall in Hk. exists k, k'. auto.
Qed.

Lemma in_order_antisym order q1 q2 :
  in_order order q1 q2 → in_order order q2 q1 → q1 = q2.
Proof. destruct order; simpl; intros; by apply Qcle_antisym. Qed.

Lemma distinct_packages_Permutation df df' :
  rows df' ≡ₚ rows df → distinct_packages df → distinct_packages df'.
Proof. intros Hperm [Hall Hnodup]. split; by rewrite Hperm. Qed.

(** The rows of a sorted frame when every row has a package: sorted by the
    order of the direction, with no row left aside. *)
Lemma sorted_rows_of_distinct df sorted order priced unpriced ks :
  Forall (λ r, is_Some (package_of r)) (rows df) →
  rows sorted ≡ₚ rows df →
  rows sorted = priced ++ unpriced →
  package_of <$> priced = Some <$> ks →
  Forall (λ r, package_of r = None) unpriced →
  StronglySorted (in_order order) ks →
  StronglySorted (package_rel (in_order order)) (rows sorted).
Proof.
  intros Hall Hperm Hrows Hpriced Hunpriced Hks.
  assert (unpriced = []) as ->.
  { destruct unpriced as [|r unpriced]; [done|].
    apply Forall_cons in Hunpriced as [Hr _].
    rewrite <-Hperm, Hrows in Hall. apply Forall_app in Hall as [_ Hall].
    apply Forall_cons in Hall as [[q Hq] _]. congruence. }
  rewrite Hrows, app_nil_r. by eapply package_rel_sorted.
Qed.

(** X19. When every row has a package and no two rows have the same one,
    the sorted view does not depend on the order in which the rows are
    stored: two datasets with the same columns and the same rows, in
    whatever order, sort to the same frame.  In particular sorting a sorted
    view again changes nothing, and the last direction chosen wins. *)
Theorem sortByPackage_order_independent (argsort : list Qc → list nat)
    (df df' : DataFrame) (order : sort_order) :
  argsort_ok argsort → order ≠ SortNone →
  "Package(LPA)" ∈ columns df → distinct_packages df →
  columns df' = columns df → rows df' ≡ₚ rows df →
  ∃ sorted,
    sortByPackage argsort df order = Some sorted ∧
    sortByPackage argsort df' order = Some sorted.
Proof.
  intros Hok Horder Hcol Hdf Hcols Hperm.
  pose proof (distinct_packages_Permutation df df' Hperm Hdf) as Hdf'.
  destruct (sortByPackage_sorted argsort Hok df order)
    as (s & Hs & Hsc & Hsp & priced & unpriced & ks & Hrows & Hpr & Hun & Hks);
    [by apply distinct_packages_has_packages|done|].
  destruct (sortByPackage_sorted argsort Hok df' order)
    as (s' & Hs' & Hsc' & Hsp' & priced' & unpriced' & ks' & Hrows' & Hpr' & Hun' & Hks');
    [apply distinct_packages_has_packages; [by rewrite Hcols|done]|done|].
  exists s. split; [done|]. rewrite Hs'. f_equal.
  destruct s as [c l], s' as [c' l']. simpl in *. f_equal; [congruence|].
  destruct Hdf as [Hall Hnodup]. destruct Hdf' as [Hall' _].
  apply (StronglySorted_unique_strong (package_rel (in_order order))).
  - intros r1 r2 Hr1 Hr2 (q1 & q2 & H1 & H2 & H12) (q2' & q1' & H2' & H1' & H21).
    apply (NoDup_fmap_inj_on package_of (rows df)); [done|..].
    + by rewrite <-Hperm, <-Hsp'.
    + by rewrite <-Hsp.
    + rewrite H1, H2. f_equal. simplify_eq. by eapply in_order_antisym.
  - by eapply (sorted_rows_of_distinct df' (mkDF c' l')).
  - by eapply (sorted_rows_of_distinct df (mkDF c l)).
  - by rewrite Hsp', Hsp.
Qed.

Lemma sortByPackage_order_independent_witness :
  ∃ sorted,
    sortByPackage stable_argsort sample_df HighestToLowest = Some sorted ∧
    sortByPackage stable_argsort sample_df_swapped HighestToLowest = Some sorted.
Proof.
  apply (sortByPackage_order_independent stable_argsort sample_df sample_df_swapped
           HighestToLowest);
    [apply stable_argsort_ok | done | by_decide | by_decide | reflexivity |].
  apply Permutation_swap.
Defined.

(** ** More on Remove Company *)





(** X21. The label does not tell company and role apart when one of them
    contains [" - "]: selecting the entry of company [a - b] with role [c]
    also removes a row of company [a] with role [b - c]. *)
Theorem remove_label_collision (re_compile : string → option (string → bool))
    (argsort : list Qc → list nat) (fs : FS) (df : DataFrame) (r : Row)
    (a b c : string) :
  load_data (init_csv fs) = Some df →
  empty df = false → names_are_text df → "Company_Role" ∉ columns df →
  r ∈ rows df →
  r !! "Company" = Some (VStr a) → r !! "Role" = Some (VStr (b +:+ " - " +:+ c)) →
  ∃ fs' out df',
    main re_compile argsort fs
      (RemoveCompany (Some (((a +:+ " - " +:+ b) +:+ " - ") +:+ c)) true)
      = Some (fs', out) ∧
    load_data (init_csv fs') = Some df' ∧
    r ∉ rows df'.
Proof.
  intros Hload Hempty Hnames Hcol Hr Hcompany Hrole. unfold main.
  rewrite Hload. simpl.
  pose proof (load_data_stored_as_is _ _ Hload) as Hdf.
  rewrite remove_company_saves by done. eexists _, _, _. split; [done|].
  rewrite init_csv_existing by (unfold save_data; rewrite lookup_insert_eq; eauto).
  split.
  - apply (load_save_stored_as_is (mkDF _ _)). simpl.
    rewrite Forall_forall in Hdf. apply Forall_forall.
    intros r' [_ Hr']%list_elem_of_filter. by apply Hdf.
  - simpl. intros [Hne _]%list_elem_of_filter. destruct Hne.
    unfold label. rewrite Hcompany, Hrole. do 2 f_equal.
    by rewrite !append_assoc.
Qed.

Lemma remove_label_collision_witness :
  ∃ fs' out df',
    main no_regex stable_argsort cloud_fs
      (RemoveCompany (Some ((("Acme" +:+ " - " +:+ "Cloud") +:+ " - ") +:+ "Engineer")) true)
      = Some (fs', out) ∧
    load_data (init_csv fs') = Some df' ∧
    new_entry cloud ∉ rows df'.
Proof.
  apply (remove_label_collision no_regex stable_argsort cloud_fs cloud_df
           (new_entry cloud) "Acme" "Cloud" "Engineer");
    [by vm_compute | reflexivity | by_decide | by_decide | by_decide
    | reflexivity | reflexivity].
Defined.

Lemma is_object_no_text (s : Series) :
  s ≠ [] → Forall (λ c, is_text c = false) s → is_object s = false.
Proof.
  intros Hs Hall. unfold is_object. destruct s as [|c s]; [done|].
  apply not_true_is_false. intros (c' & Hin & Hc')%existsb_exists.
  rewrite Forall_forall in Hall. apply list_elem_of_In, Hall in Hin. congruence.
Qed.

(** X23. On a dataset that is not empty and in which no row has a company
    name, the Remove page raises as soon as it is shown, before any entry is
    selected: the labels cannot be computed from a column without text. *)
Theorem remove_page_raises_without_companies (fs : FS) (df : DataFrame)
    (selected : option string) (clicked : bool) :
  empty df = false →
  Forall (λ r : Row, is_text (r !! "Company") = false) (rows df) →
  remove_company fs df selected clicked = None.
Proof.
  intros Hempty Hall. unfold remove_company. rewrite Hempty.
  assert (company_role df = None) as ->; [|done].
  unfold company_role. destruct (getitem df "Company") as [c|] eqn:Hc; [|done].
  unfold getitem in Hc. case_decide; [|done]. injection Hc as <-.
  cbn [mbind option_bind]. unfold str_add_scalar.
  rewrite is_object_no_text; [done| |].
  - unfold empty in Hempty. by destruct (rows df).
  - apply Forall_forall. intros c (r & -> & Hr)%list_elem_of_fmap.
    rewrite Forall_forall in Hall. by apply Hall.
Qed.

Lemma remove_page_raises_without_companies_witness :
  remove_company acme_fs companyless_df None false = None.
Proof.
  apply (remove_page_raises_without_companies acme_fs companyless_df None false);
    [reflexivity | by_decide].
Defined.

(** ** Add, then Remove *)





